(** * Hey Picture: the caption compositor and the generation client of
      [src/App.js], embedded in Rocq.

    The development follows the source file top-down.

    - [JSString]: the string primitives [App.js] calls ([split(' ')],
      [trim], truthiness), over UTF-16 code units, and the whitespace-split
      word sequence the specification talks about.
    - [JSNumber]: [Number] to string (inside the template literal that
      builds [ctx.font]) and [parseInt].
    - [Compositor]: [overlayTextOnImage], with the browser's image decoder
      and text metrics as parameters.
    - [Client]: [generateImages], as a transition on the component's state
      that also returns the network requests it issued.
    - [Layout], [Examples]: the vocabulary of the statements and the
      concrete inputs of the examples.
    - [StringFacts], [WrapFacts], [NumberFacts]: lemmas; [Typography],
      [Wrapping], [ClientFacts]: the properties of the compositor and of
      the client.

    JavaScript numbers are modelled by exact rationals: every number the
    compositor computes comes from the integer image dimensions and the
    measured text widths by a handful of multiplications, divisions by
    constants and additions. *)

From Stdlib Require Import Ascii String.
From Stdlib Require Import List NArith ZArith QArith Qround Qminmax Bool Lia Lqa.
Import ListNotations.

Set Implicit Arguments.

(* ------------------------------------------------------------------ *)
(** * Part I: the embedding *)
(* ------------------------------------------------------------------ *)

Module JSString.

(** A JavaScript string is a sequence of UTF-16 code units. *)
Definition jsstring := list N.

(** String literals of the source, written as Rocq strings. *)
Definition lit (s : string) : jsstring :=
  map N_of_ascii (list_ascii_of_string s).

Definition SPACE : N := 32.

Definition is_space (c : N) : bool := N.eqb c SPACE.

(** ECMAScript [WhiteSpace] and [LineTerminator] code points: what
    [String.prototype.trim] strips and what the regular expression class
    [\s] matches. *)
Definition isWhiteSpace (c : N) : bool :=
  existsb (N.eqb c)
    [9; 10; 11; 12; 13; 32; 160; 5760; 8232; 8233; 8239; 8287; 12288; 65279]%N
  || ((8192 <=? c) && (c <=? 8202))%N.

(** [s.split(sep)] for a one-code-unit separator, generalised to a
    predicate on code units: the pieces between separators, empty pieces
    included; the empty string gives one empty piece. *)
Fixpoint split_on (p : N -> bool) (s : jsstring) : list jsstring :=
  match s with
  | [] => [[]]
  | c :: s' =>
      if p c then [] :: split_on p s'
      else match split_on p s' with
           | w :: ws => (c :: w) :: ws
           | [] => [[c]]
           end
  end.

(** [text.split(' ')] *)
Definition split_space (text : jsstring) : list jsstring :=
  split_on is_space text.

(** [Boolean(s)] on a string: the empty string is the only falsy one. *)
Definition truthy (s : jsstring) : bool :=
  match s with [] => false | _ :: _ => true end.

Fixpoint trimStart (s : jsstring) : jsstring :=
  match s with
  | [] => []
  | c :: s' => if isWhiteSpace c then trimStart s' else s
  end.

Fixpoint trimEnd (s : jsstring) : jsstring :=
  match s with
  | [] => []
  | c :: s' =>
      match trimEnd s' with
      | [] => if isWhiteSpace c then [] else [c]
      | t => c :: t
      end
  end.

(** [s.trim()] *)
Definition trim (s : jsstring) : jsstring := trimStart (trimEnd s).

(** The whitespace-split word sequence of a string, in the sense of the
    specification ("split on whitespace"): maximal runs of
    non-whitespace code units, in order. *)
Definition ws_words (s : jsstring) : list jsstring :=
  filter truthy (split_on isWhiteSpace s).

End JSString.

Module JSNumber.
Import JSString.

(** Decimal digits of a natural number, most significant first.  The
    fuel is the number of binary digits, which bounds the number of
    decimal digits. *)
Fixpoint digits_fuel (fuel : nat) (n : N) : jsstring :=
  match fuel with
  | O => []
  | S f =>
      (if (n <? 10)%N then [] else digits_fuel f (n / 10)%N)
        ++ [(48 + n mod 10)%N]
  end.

Definition digits (n : N) : jsstring :=
  digits_fuel (S (N.to_nat (N.log2 n))) n.

(** Digits after the decimal point of [num / den] (with [num < den]),
    until the expansion ends. *)
Fixpoint frac_digits (fuel : nat) (num den : N) : jsstring :=
  match fuel with
  | O => []
  | S f =>
      if (num =? 0)%N then []
      else (48 + (10 * num) / den)%N :: frac_digits f ((10 * num) mod den)%N den
  end.

Definition unsigned_toString (x : Q) : jsstring :=
  let num := Z.to_N (Qnum x) in
  let den := Npos (Qden x) in
  let ip := (num / den)%N in
  let fr := (num mod den)%N in
  digits ip ++ (if (fr =? 0)%N then [] else 46%N :: frac_digits 17 fr den).

(** [Number::toString] (the conversion a template literal applies), on
    the numbers this program formats: finite decimals of moderate
    magnitude, whose shortest round-trip representation is their exact
    decimal expansion. *)
Definition Number_toString (x : Q) : jsstring :=
  if (Qnum x <? 0)%Z then 45%N :: unsigned_toString (Qopp x)
  else unsigned_toString x.

(** The value of a code unit as a digit in the given radix. *)
Definition digit_value (radix c : N) : option N :=
  let v :=
    if ((48 <=? c) && (c <=? 57))%N then Some (c - 48)%N
    else if ((97 <=? c) && (c <=? 122))%N then Some (c - 87)%N
    else if ((65 <=? c) && (c <=? 90))%N then Some (c - 55)%N
    else None in
  match v with
  | Some d => if (d <? radix)%N then Some d else None
  | None => None
  end.

(** The longest prefix of radix digits, as a number; [None] when there
    is no digit at all. *)
Fixpoint parse_digits (radix acc : N) (seen : bool) (s : jsstring) : option N :=
  match s with
  | c :: s' =>
      match digit_value radix c with
      | Some d => parse_digits radix (radix * acc + d)%N true s'
      | None => if seen then Some acc else None
      end
  | [] => if seen then Some acc else None
  end.

(** The code units of the decimal digits, 0 to 9. *)
Definition is_decimal_digit (c : N) : Prop := (48 <= c <= 57)%N.

(** The number a string of decimal digits denotes, continuing from
    [acc]. *)
Definition decimal_value (acc : N) (ds : jsstring) : N :=
  fold_left (fun a c => (10 * a + (c - 48))%N) ds acc.

(** [parseInt(s)] with no radix argument; [None] is [NaN].  Leading
    whitespace is skipped, a sign is read, a [0x] or [0X] prefix selects
    radix 16, and the longest prefix of digits is converted. *)
Definition parseInt (s : jsstring) : option Z :=
  let s1 := trimStart s in
  let neg := match s1 with c :: _ => (c =? 45)%N | [] => false end in
  let s2 :=
    match s1 with
    | c :: r => if ((c =? 45) || (c =? 43))%N then r else s1
    | [] => s1
    end in
  let hex :=
    match s2 with
    | z :: x :: _ => ((z =? 48) && ((x =? 120) || (x =? 88)))%N
    | _ => false
    end in
  let radix := if hex then 16%N else 10%N in
  let s3 := if hex then skipn 2 s2 else s2 in
  match parse_digits radix 0 false s3 with
  | Some n => Some (if neg then (- Z.of_N n)%Z else Z.of_N n)
  | None => None
  end.

End JSNumber.

Module Compositor.
Import JSString JSNumber.

(** The text state of the 2D context, as [overlayTextOnImage] sets it
    before drawing. *)
Record TextStyle := {
  font : jsstring;
  fillStyle : jsstring;
  textAlign : jsstring;
  textBaseline : jsstring;
  shadowColor : jsstring;
  shadowBlur : Q;
  shadowOffsetX : Q;
  shadowOffsetY : Q
}.

(** The drawing calls made on the context, in order. *)
Inductive DrawOp :=
| drawImage (src : jsstring) (dx dy : Q)
| fillText (style : TextStyle) (text : jsstring) (x y : Q).

Record Canvas := {
  width : N;
  height : N;
  ops : list DrawOp
}.

(** What the promise of [overlayTextOnImage] resolves with: the URL it
    was given, or the PNG data URL of the canvas it drew (the encoder is
    the browser's; the canvas determines its output). *)
Inductive DataURL :=
| Url (u : jsstring)
| toDataURL (c : Canvas).

(** [Math.max(20, img.width / 20)] *)
Definition fontSize (W : N) : Q :=
  Qmax 20 (inject_Z (Z.of_N W) / 20).

(** The value of [ctx.font] after the assignment on line 141: the
    shorthand is valid, so the context keeps it, size included. *)
Definition ctx_font (W : N) : jsstring :=
  Number_toString (fontSize W) ++ lit "px Inter, sans-serif".

(** [canvas.width * 0.8] *)
Definition maxWidth (W : N) : Q := inject_Z (Z.of_N W) * (8 # 10).

(** [parseInt(ctx.font) * 1.2]; [None] is [NaN]. *)
Definition lineHeight (font : jsstring) : option Q :=
  match parseInt font with
  | Some k => Some (inject_Z k * (12 # 10))
  | None => None
  end.

Definition style_of (W : N) : TextStyle :=
  {| font := ctx_font W;
     fillStyle := lit "white";
     textAlign := lit "center";
     textBaseline := lit "middle";
     shadowColor := lit "rgba(0, 0, 0, 0.7)";
     shadowBlur := 5;
     shadowOffsetX := 2;
     shadowOffsetY := 2 |}.

Section Overlay.

(** The browser's image decoder: the dimensions [img.onload] sees, or
    [None] when [img.onerror] fires. *)
Variable decode : jsstring -> option (N * N).

(** [ctx.measureText(text).width] under the font [ctx.font]. *)
Variable measureText : jsstring -> jsstring -> Q.

(** The [for] loop of lines 156-166: [n] is the loop index, [line] and
    [lines] the two variables it updates. *)
Fixpoint wrap_loop (font : jsstring) (maxWidth : Q) (words : list jsstring)
    (n : nat) (line : jsstring) (lines : list jsstring)
  : list jsstring * jsstring :=
  match words with
  | [] => (lines, line)
  | w :: words' =>
      let testLine := line ++ w ++ [SPACE] in
      let testWidth := measureText font testLine in
      if negb (Qle_bool testWidth maxWidth) && (0 <? n)%nat
      then wrap_loop font maxWidth words' (S n) (w ++ [SPACE]) (lines ++ [line])
      else wrap_loop font maxWidth words' (S n) testLine lines
  end.

(** Lines 152-167: the array [lines] after the final [lines.push(line)]. *)
Definition wrap (font : jsstring) (maxWidth : Q) (text : jsstring)
  : list jsstring :=
  let '(lines, line) := wrap_loop font maxWidth (split_space text) 0 [] [] in
  lines ++ [line].

(** The [forEach] of lines 173-176. *)
Fixpoint fillLines (style : TextStyle) (x y lineHeight : Q)
    (lines : list jsstring) : list DrawOp :=
  match lines with
  | [] => []
  | l :: lines' =>
      fillText style (trim l) x y
        :: fillLines style x (y + lineHeight) lineHeight lines'
  end.

(** The body of [img.onload]. A [NaN] line height makes every [y]
    [NaN], and [fillText] draws nothing at a [NaN] coordinate. *)
Definition onload (imageUrl text : jsstring) (W H : N) : Canvas :=
  let style := style_of W in
  let lines := wrap (font style) (maxWidth W) text in
  let texts :=
    match lineHeight (font style) with
    | Some lineHeight =>
        let y := inject_Z (Z.of_N H) / 2
                 - (inject_Z (Z.of_nat (List.length lines)) - 1) * lineHeight / 2 in
        fillLines style (inject_Z (Z.of_N W) / 2) y lineHeight lines
    | None => []
    end in
  {| width := W; height := H; ops := drawImage imageUrl 0 0 :: texts |}.

Definition overlayTextOnImage (imageUrl text : jsstring) : DataURL :=
  match decode imageUrl with
  | Some (W, H) => toDataURL (onload imageUrl text W H)
  | None => Url imageUrl
  end.

End Overlay.

End Compositor.

Module Client.
Import JSString Compositor.

(** An element of [result.predictions]. *)
Record Prediction := { bytesBase64Encoded : option jsstring }.

(** What the [try] block can observe of the service. *)
Inductive Response :=
| Rejected (message : jsstring)
    (* [fetch] or [response.json()] threw [err], with [err.message] *)
| NotOk (serviceMessage : option jsstring)
    (* [!response.ok], with [errorData.error?.message] *)
| Ok (predictions : option (list Prediction))
    (* [response.ok], with [result.predictions] *).

Record Request := {
  apiUrl : jsstring;
  instances_prompt : jsstring;
  sampleCount : N
}.

(** The component's state variables (lines 6-12). *)
Record State := {
  prompt : jsstring;
  customText : jsstring;
  generatedImages : list DataURL;
  loading : bool;
  error : jsstring;
  message : jsstring;
  apiKey : jsstring
}.

Definition setMessage (m : jsstring) (st : State) : State :=
  {| prompt := prompt st; customText := customText st;
     generatedImages := generatedImages st; loading := loading st;
     error := error st; message := m; apiKey := apiKey st |}.

Definition setError (e : jsstring) (st : State) : State :=
  {| prompt := prompt st; customText := customText st;
     generatedImages := generatedImages st; loading := loading st;
     error := e; message := message st; apiKey := apiKey st |}.

Definition setLoading (b : bool) (st : State) : State :=
  {| prompt := prompt st; customText := customText st;
     generatedImages := generatedImages st; loading := b;
     error := error st; message := message st; apiKey := apiKey st |}.

Definition setGeneratedImages (imgs : list DataURL) (st : State) : State :=
  {| prompt := prompt st; customText := customText st;
     generatedImages := imgs; loading := loading st;
     error := error st; message := message st; apiKey := apiKey st |}.

(** [a || b] on strings. *)
Definition or_else (a b : jsstring) : jsstring := if truthy a then a else b.

Definition truthy_url (u : DataURL) : bool :=
  match u with
  | Url s => truthy s
  | toDataURL _ => true
  end.

(** [xs.filter(Boolean)] on an array of URLs and [null]s. *)
Fixpoint filter_Boolean (xs : list (option DataURL)) : list DataURL :=
  match xs with
  | [] => []
  | Some u :: xs' =>
      if truthy_url u then u :: filter_Boolean xs' else filter_Boolean xs'
  | None :: xs' => filter_Boolean xs'
  end.

Definition request_of (st : State) : Request :=
  {| apiUrl :=
       lit "https://generativelanguage.googleapis.com/v1beta/models/imagen-3.0-generate-002:predict?key="
         ++ apiKey st;
     instances_prompt := prompt st;
     sampleCount := 3 |}.

Section Generate.

Variable decode : jsstring -> option (N * N).
Variable measureText : jsstring -> jsstring -> Q.

(** The service, as the client sees it. *)
Variable fetch : Request -> Response.

(** The callback mapped over [result.predictions] (lines 101-110). *)
Definition per_prediction (customText : jsstring) (prediction : Prediction)
  : option DataURL :=
  match bytesBase64Encoded prediction with
  | Some b =>
      if truthy b then
        let imageUrl := lit "data:image/png;base64," ++ b in
        if truthy (trim customText)
        then Some (overlayTextOnImage decode measureText imageUrl customText)
        else Some (Url imageUrl)
      else None
  | None => None
  end.

(** [generateImages]: the state when the promise settles, and the
    requests sent on the way. *)
Definition generateImages (st : State) : State * list Request :=
  if negb (truthy (trim (prompt st))) then
    (setMessage (lit "Please enter a prompt to generate images.") st, [])
  else if negb (truthy (trim (apiKey st))) then
    (setMessage (lit "Please enter your Gemini API Key to generate images.") st, [])
  else
    let st1 := setGeneratedImages [] (setError [] (setLoading true st)) in
    let req := request_of st in
    let st2 :=
      match fetch req with
      | Rejected m =>
          setError
            (or_else m (lit "An unexpected error occurred during image generation."))
            st1
      | NotOk m =>
          let thrown :=
            or_else (match m with Some s => s | None => [] end)
              (lit "Failed to generate images. Please check your API key and prompt.") in
          setError
            (or_else thrown (lit "An unexpected error occurred during image generation."))
            st1
      | Ok (Some (p :: ps)) =>
          let imagesWithText := map (per_prediction (customText st)) (p :: ps) in
          setGeneratedImages (filter_Boolean imagesWithText) st1
      | Ok _ =>
          setError (lit "No images were generated. Please try a different prompt.") st1
      end in
    (setLoading false st2, [req]).

End Generate.

(** [handleCloseMessage] (lines 199-201) *)
Definition handleCloseMessage (st : State) : State := setMessage [] st.

(** What the markup renders of the state: the message modal
    ([message && ...], line 321) and the error banner ([error && ...],
    line 288). *)
Definition modal_shown (st : State) : bool := truthy (message st).
Definition banner_shown (st : State) : bool := truthy (error st).

(** A prediction carries a payload when [bytesBase64Encoded] is a
    non-empty string. *)
Definition has_payload (prediction : Prediction) : bool :=
  match bytesBase64Encoded prediction with
  | Some b => truthy b
  | None => false
  end.

(** The data URL built from a prediction's payload (line 103). *)
Definition payload_url (prediction : Prediction) : jsstring :=
  lit "data:image/png;base64,"
    ++ match bytesBase64Encoded prediction with Some b => b | None => [] end.

(** What a prediction with a payload becomes (lines 104-107). *)
Definition image_of (decode : jsstring -> option (N * N))
    (measureText : jsstring -> jsstring -> Q)
    (customText : jsstring) (prediction : Prediction) : DataURL :=
  if truthy (trim customText)
  then overlayTextOnImage decode measureText (payload_url prediction) customText
  else Url (payload_url prediction).

End Client.

(** Vocabulary for stating what the wrap does. *)
Module Layout.
Import JSString Compositor.

(** The line the loop holds after appending the pieces [g] to an empty
    line: each piece followed by one space. *)
Definition line_of (g : list jsstring) : jsstring :=
  concat (map (fun w => w ++ [SPACE]) g).

Section Metric.

Variable measureText : jsstring -> jsstring -> Q.
Variable font : jsstring.
Variable budget : Q.

(** [Greedy cur rest groups]: starting with the pieces [cur] on the
    current line, the pieces [rest] are placed one at a time; a piece
    joins the current line when the prospective line is within the
    budget, and otherwise closes it and opens the next line.  [groups]
    are the pieces of each line, the line in progress last. *)
Inductive Greedy : list jsstring -> list jsstring -> list (list jsstring) -> Prop :=
| Greedy_end cur :
    Greedy cur [] [cur]
| Greedy_join cur w rest groups :
    measureText font (line_of cur ++ w ++ [SPACE]) <= budget ->
    Greedy (cur ++ [w]) rest groups ->
    Greedy cur (w :: rest) groups
| Greedy_break cur w rest groups :
    budget < measureText font (line_of cur ++ w ++ [SPACE]) ->
    Greedy [w] rest groups ->
    Greedy cur (w :: rest) (cur :: groups).

(** The same placement as a function. *)
Fixpoint greedy (cur rest : list jsstring) : list (list jsstring) :=
  match rest with
  | [] => [cur]
  | w :: rest' =>
      if Qle_bool (measureText font (line_of cur ++ w ++ [SPACE])) budget
      then greedy (cur ++ [w]) rest'
      else cur :: greedy [w] rest'
  end.

(** The wrap as the specification words it: the words are the
    whitespace-split words of the caption, and a line is closed (its
    trailing space trimmed) when the prospective line is over the
    budget and the current line already has at least one word. *)
Fixpoint spec_wrap_loop (words : list jsstring) (line : jsstring)
    (lines : list jsstring) : list jsstring * jsstring :=
  match words with
  | [] => (lines, line)
  | w :: words' =>
      let testLine := line ++ w ++ [SPACE] in
      if negb (Qle_bool (measureText font testLine) budget)
         && negb (Nat.eqb (List.length (ws_words line)) 0)
      then spec_wrap_loop words' (w ++ [SPACE]) (lines ++ [trimEnd line])
      else spec_wrap_loop words' testLine lines
  end.

Definition spec_wrap (text : jsstring) : list jsstring :=
  let '(lines, line) := spec_wrap_loop (ws_words text) [] [] in
  lines ++ [trimEnd line].

End Metric.

(** A text metric under which no string is narrower than a substring of
    it (advance widths are not negative). *)
Definition monotone (measureText : jsstring -> jsstring -> Q) : Prop :=
  forall font a s b, measureText font s <= measureText font (a ++ s ++ b).

(** A fixed-pitch metric: every code unit advances by [advance]. *)
Definition fixed_pitch (advance : Q) (font s : jsstring) : Q :=
  advance * inject_Z (Z.of_nat (List.length s)).

(** The [y] coordinates of the text drawn on a canvas, in drawing order. *)
Fixpoint text_ys (ops : list DrawOp) : list Q :=
  match ops with
  | [] => []
  | fillText _ _ _ y :: ops' => y :: text_ys ops'
  | drawImage _ _ _ :: ops' => text_ys ops'
  end.

(** The texts drawn on a canvas, in drawing order. *)
Fixpoint texts_drawn (ops : list DrawOp) : list jsstring :=
  match ops with
  | [] => []
  | fillText _ t _ _ :: ops' => t :: texts_drawn ops'
  | drawImage _ _ _ :: ops' => texts_drawn ops'
  end.

(** The width bound as the specification words it: a drawn line is
    within the budget unless it consists of a single whitespace-split
    word that is itself wider than the budget. *)
Definition claimed_within_budget
    (measureText : jsstring -> jsstring -> Q) (W : N) (text : jsstring) : Prop :=
  forall l,
    In l (wrap measureText (ctx_font W) (maxWidth W) text) ->
    measureText (ctx_font W) (trim l) <= maxWidth W
    \/ exists w, ws_words l = [w] /\ maxWidth W < measureText (ctx_font W) w.

End Layout.

(** Concrete inputs for the examples of Part II. *)
Module Examples.
Import JSString Compositor Client.

(** A caption with one leading space and one long word. *)
Definition led_caption : jsstring :=
  lit " Supercalifragilisticexpialidocious".

(** A caption of two words separated by a tab. *)
Definition tabbed_caption : jsstring :=
  lit "Congratulations" ++ [9%N] ++ lit "Congratulations".

(** A caption of four words, each too wide to share a line of a 1024
    wide image with another at 30 units a code unit. *)
Definition four_line_caption : jsstring :=
  lit "Congratulations Congratulations Congratulations Congratulations".

(** A state with a prompt, a key and the given caption. *)
Definition ready (caption : jsstring) : State :=
  {| prompt := lit "a red balloon";
     customText := caption;
     generatedImages := [];
     loading := false;
     error := [];
     message := [];
     apiKey := lit "AIzaSy-demo" |}.

(** A prediction with a payload. *)
Definition sample : Prediction := {| bytesBase64Encoded := Some (lit "QUJD") |}.

End Examples.

(** Ways of laying pieces out in lines, to compare the wrap with. *)
Module Partition.
Import JSString Layout.

Section Metric.

Variable measureText : jsstring -> jsstring -> Q.
Variable font : jsstring.
Variable budget : Q.

(** A line the loop can produce: it has a piece, and with two pieces or
    more it measures (trailing space included) within the budget. *)
Definition admissible (g : list jsstring) : Prop :=
  g <> [] /\ ((2 <= List.length g)%nat -> measureText font (line_of g) <= budget).

(** A wrapping of [pieces]: the pieces, in order, cut into admissible
    lines. *)
Definition wrapping (pieces : list jsstring) (groups : list (list jsstring)) : Prop :=
  concat groups = pieces /\ Forall admissible groups.

End Metric.

End Partition.

(** [handleDownload] (lines 189-196) and the gallery that calls it
    (lines 297-315). *)
Module Download.
Import JSString JSNumber Compositor.

(** The link [handleDownload] creates, clicks and removes again. *)
Record Anchor := {
  href : DataURL;
  download : jsstring
}.

(** [`hey-picture-image-${index + 1}.png`] *)
Definition download_name (index : N) : jsstring :=
  lit "hey-picture-image-"
    ++ Number_toString (inject_Z (Z.of_N (index + 1)))
    ++ lit ".png".

(** [handleDownload(imageUrl, index)]: the link that is clicked. *)
Definition handleDownload (imageUrl : DataURL) (index : N) : Anchor :=
  {| href := imageUrl; download := download_name index |}.

(** [images.map((image, index) => f(image, index))], from index [i] on. *)
Fixpoint map_index (A B : Type) (f : A -> N -> B) (i : N) (l : list A) : list B :=
  match l with
  | [] => []
  | a :: l' => f a i :: map_index f (i + 1) l'
  end.

(** What the download buttons of the gallery click, card by card
    ([onClick={() => handleDownload(image, index)}]). *)
Definition gallery_downloads (images : list DataURL) : list Anchor :=
  map_index handleDownload 0 images.

End Download.

(** [generateImages] against responses whose [predictions] may hold
    [null] (lines 97-118). *)
Module Service.
Import JSString Compositor Client.

(** An element of [result.predictions], as the callback of line 101
    meets it: [null], on which reading [.bytesBase64Encoded] throws a
    [TypeError]; or any other value, of which only that property is
    read ([None] when it is absent, as on a number or a string). *)
Inductive Entry :=
| null_entry
| value_entry (prediction : Prediction).

(** What the service does with a request. *)
Inductive Reply :=
| Throws (message : jsstring)
    (* [fetch] or [response.json()] rejects with [err], [err.message] *)
| BadStatus (serviceMessage : option jsstring)
    (* [!response.ok], with [errorData.error?.message] *)
| Body (predictions : option (list Entry))
    (* [response.ok]: [result.predictions], absent or an array *).

Definition is_null (e : Entry) : bool :=
  match e with
  | null_entry => true
  | value_entry _ => false
  end.

(** An entry that is not [null] and carries no payload. *)
Definition lacks_payload (e : Entry) : bool :=
  match e with
  | null_entry => false
  | value_entry prediction => negb (has_payload prediction)
  end.

(** The entries that are not [null]. *)
Fixpoint values (entries : list Entry) : list Prediction :=
  match entries with
  | [] => []
  | null_entry :: entries' => values entries'
  | value_entry prediction :: entries' => prediction :: values entries'
  end.

(** [Promise.all]: rejected as soon as one promise is ([inl], with the
    error's message), resolved with all the values, in order, otherwise. *)
Fixpoint Promise_all (A : Type) (promises : list (jsstring + A)) : jsstring + list A :=
  match promises with
  | [] => inr []
  | inl err :: _ => inl err
  | inr a :: promises' =>
      match Promise_all promises' with
      | inl err => inl err
      | inr l => inr (a :: l)
      end
  end.

Section TryBlock.

Variable decode : jsstring -> option (N * N).
Variable measureText : jsstring -> jsstring -> Q.

(** [err.message] of the [TypeError] the engine throws when a property of
    [null] is read. *)
Variable typeError : jsstring.

Variable service : Request -> Reply.

(** The [async] callback of lines 101-110: a promise, rejected when the
    entry is [null]. *)
Definition per_entry (customText : jsstring) (e : Entry)
  : jsstring + option DataURL :=
  match e with
  | null_entry => inl typeError
  | value_entry prediction =>
      inr (per_prediction decode measureText customText prediction)
  end.

(** [generateImages]: the state when the promise settles, and the
    requests sent on the way. *)
Definition generateImages (st : State) : State * list Request :=
  if negb (truthy (trim (prompt st))) then
    (setMessage (lit "Please enter a prompt to generate images.") st, [])
  else if negb (truthy (trim (apiKey st))) then
    (setMessage (lit "Please enter your Gemini API Key to generate images.") st, [])
  else
    let st1 := setGeneratedImages [] (setError [] (setLoading true st)) in
    let req := request_of st in
    let caught err :=
      setError
        (or_else err (lit "An unexpected error occurred during image generation."))
        st1 in
    let st2 :=
      match service req with
      | Throws m => caught m
      | BadStatus m =>
          caught
            (or_else (match m with Some s => s | None => [] end)
               (lit "Failed to generate images. Please check your API key and prompt."))
      | Body (Some (e :: es)) =>
          match Promise_all (map (per_entry (customText st)) (e :: es)) with
          | inr imagesWithText =>
              setGeneratedImages (filter_Boolean imagesWithText) st1
          | inl err => caught err
          end
      | Body _ =>
          setError (lit "No images were generated. Please try a different prompt.") st1
      end in
    (setLoading false st2, [req]).

(** The reply as [Client.generateImages] takes it: a [null] entry is an
    exception thrown inside the [try] block. *)
Definition observed (r : Reply) : Response :=
  match r with
  | Throws m => Rejected m
  | BadStatus m => NotOk m
  | Body (Some entries) =>
      if existsb is_null entries then Rejected typeError
      else Ok (Some (values entries))
  | Body None => Ok None
  end.

End TryBlock.

End Service.

From Stdlib Require Floats.

(** The coordinates of lines 170-176 as the program computes them, in
    binary64. *)
Module Binary64.
Import JSString JSNumber Compositor.
Import Floats.
Local Open Scope float_scope.

(** An integer as a [Number]: the double nearest to it, the integer
    itself below 2^53 in magnitude.  (Faithful below 2^63, far above the
    size of any canvas.) *)
Definition float_of_Z (z : Z) : float :=
  if (z <? 0)%Z then - of_uint63 (Uint63.of_Z (- z))
  else of_uint63 (Uint63.of_Z z).

Definition float_of_N (n : N) : float := float_of_Z (Z.of_N n).

Definition float_of_nat (n : nat) : float := float_of_Z (Z.of_nat n).

(** What the literal [1.2] of line 170 denotes: the double nearest to
    1.2. *)
Definition literal_1_2 : float := 0x1.3333333333333p+0.

(** [parseInt(ctx.font) * 1.2]; [None] is [NaN]. *)
Definition lineHeight (font : jsstring) : option float :=
  match parseInt font with
  | Some k => Some (float_of_Z k * literal_1_2)
  | None => None
  end.

(** The [forEach] of lines 173-176: the text and the [y] of each
    [fillText]. *)
Fixpoint fillLines (y lineHeight : float) (lines : list jsstring)
  : list (jsstring * float) :=
  match lines with
  | [] => []
  | l :: lines' => (trim l, y) :: fillLines (y + lineHeight) lineHeight lines'
  end.

(** [canvas.height / 2 - (lines.length - 1) * lineHeight / 2] *)
Definition start_y (H : N) (count : nat) (lineHeight : float) : float :=
  float_of_N H / 2 - (float_of_nat count - 1) * lineHeight / 2.

(** Lines 170-176 for an image of the given size: what is drawn where.
    With a [NaN] line height nothing is drawn. *)
Definition drawn_lines (measureText : jsstring -> jsstring -> Q)
    (text : jsstring) (W H : N) : list (jsstring * float) :=
  let lines := wrap measureText (ctx_font W) (maxWidth W) text in
  match lineHeight (ctx_font W) with
  | Some lineHeight => fillLines (start_y H (List.length lines) lineHeight) lineHeight lines
  | None => []
  end.

(** The rational a finite double is; [None] for infinities and [NaN]. *)
Definition exact (x : float) : option Q :=
  match Prim2SF x with
  | S754_zero _ => Some 0%Q
  | S754_finite s m e =>
      Some ((if s then -1 else 1) * inject_Z (Zpos m) * Qpower 2 e)%Q
  | _ => None
  end.

End Binary64.

(* ------------------------------------------------------------------ *)
(** * Part II: properties *)
(* ------------------------------------------------------------------ *)

Module StringFacts.
Import JSString.

Lemma split_on_nonempty p s : split_on p s <> [].
Proof.
  destruct s as [|c s]; simpl; [discriminate|].
  destruct (p c); [discriminate|].
  destruct (split_on p s); discriminate.
Qed.

(** Splitting distributes over a separator occurrence. *)
Lemma split_on_app_sep p a c b :
  p c = true ->
  split_on p (a ++ c :: b) = split_on p a ++ split_on p b.
Proof.
  intros Hc. induction a as [|x a IH]; simpl.
  - now rewrite Hc.
  - destruct (p x).
    + now rewrite IH.
    + rewrite IH. pose proof (split_on_nonempty p a) as Hne.
      destruct (split_on p a); [congruence | reflexivity].
Qed.

(** [split(' ')] followed by [join(' ')] is the identity; here with the
    trailing space the loop adds after every piece. *)
Lemma split_space_join text :
  concat (map (fun w => w ++ [SPACE]) (split_space text)) = text ++ [SPACE].
Proof.
  unfold split_space. induction text as [|c s IH]; simpl; [reflexivity|].
  unfold is_space at 1. destruct (N.eqb_spec c SPACE) as [->|Hc]; simpl.
  - now rewrite IH.
  - pose proof (split_on_nonempty is_space s) as Hne.
    destruct (split_on is_space s) as [|w ws]; [congruence|].
    simpl in *. now rewrite IH.
Qed.

Lemma space_is_whitespace : isWhiteSpace SPACE = true.
Proof. reflexivity. Qed.

Lemma ws_words_app_sep a c b :
  isWhiteSpace c = true ->
  ws_words (a ++ c :: b) = ws_words a ++ ws_words b.
Proof.
  intros Hc. unfold ws_words.
  now rewrite split_on_app_sep, filter_app.
Qed.

Lemma ws_words_nil : ws_words [] = [].
Proof. reflexivity. Qed.

Lemma ws_words_snoc_space s : ws_words (s ++ [SPACE]) = ws_words s.
Proof.
  rewrite ws_words_app_sep by reflexivity.
  now rewrite ws_words_nil, app_nil_r.
Qed.

Lemma ws_words_cons_ws c s :
  isWhiteSpace c = true -> ws_words (c :: s) = ws_words s.
Proof.
  intros Hc. change (c :: s) with ([] ++ c :: s).
  now rewrite ws_words_app_sep.
Qed.

Lemma ws_words_trimStart s : ws_words (trimStart s) = ws_words s.
Proof.
  induction s as [|c s IH]; simpl; [reflexivity|].
  destruct (isWhiteSpace c) eqn:Hc; [|reflexivity].
  now rewrite ws_words_cons_ws.
Qed.

(** [trimEnd] cuts off a suffix of whitespace. *)
Lemma trimEnd_spec s :
  exists b, s = trimEnd s ++ b /\ forallb isWhiteSpace b = true.
Proof.
  induction s as [|c s (b & Hs & Hb)]; simpl.
  - exists []. split; reflexivity.
  - destruct (trimEnd s) as [|t ts] eqn:Ht.
    + destruct (isWhiteSpace c) eqn:Hc.
      * exists (c :: s). split; [reflexivity|].
        simpl in Hs. subst b. simpl. now rewrite Hc.
      * exists b. split; [|assumption]. simpl in *. now f_equal.
    + exists b. split; [|assumption]. simpl in *. now f_equal.
Qed.

Lemma trimStart_spec s :
  exists a, s = a ++ trimStart s /\ forallb isWhiteSpace a = true.
Proof.
  induction s as [|c s (a & Hs & Ha)]; simpl.
  - exists []. split; reflexivity.
  - destruct (isWhiteSpace c) eqn:Hc.
    + exists (c :: a). split; [simpl; now rewrite <- Hs|].
      simpl. now rewrite Hc.
    + exists []. split; reflexivity.
Qed.

(** [trim] keeps a substring and drops whitespace on both sides. *)
Lemma trim_spec s :
  exists a b,
    s = a ++ trim s ++ b
    /\ forallb isWhiteSpace a = true /\ forallb isWhiteSpace b = true.
Proof.
  destruct (trimEnd_spec s) as (b & Hs & Hb).
  destruct (trimStart_spec (trimEnd s)) as (a & Ht & Ha).
  exists a, b. unfold trim. repeat split; try assumption.
  rewrite app_assoc, <- Ht. exact Hs.
Qed.

Lemma ws_words_app_blank s b :
  forallb isWhiteSpace b = true -> ws_words (s ++ b) = ws_words s.
Proof.
  revert s. induction b as [|c b IH]; intros s Hb.
  - now rewrite app_nil_r.
  - simpl in Hb. apply andb_prop in Hb as [Hc Hb].
    rewrite ws_words_app_sep by assumption.
    rewrite <- (app_nil_l b), IH by assumption.
    now rewrite ws_words_nil, app_nil_r.
Qed.

Lemma ws_words_blank_app a s :
  forallb isWhiteSpace a = true -> ws_words (a ++ s) = ws_words s.
Proof.
  induction a as [|c a IH]; intros Ha; [reflexivity|].
  simpl in Ha. apply andb_prop in Ha as [Hc Ha].
  simpl. rewrite ws_words_cons_ws by assumption. auto.
Qed.

(** Trimming a string does not change its words. *)
Lemma ws_words_trim s : ws_words (trim s) = ws_words s.
Proof.
  destruct (trim_spec s) as (a & b & Hs & Ha & Hb).
  rewrite Hs at 2.
  rewrite ws_words_blank_app by assumption.
  now rewrite ws_words_app_blank.
Qed.

(** A string of whitespace only trims to the empty string. *)
Lemma trim_blank s : forallb isWhiteSpace s = true -> trim s = [].
Proof.
  intros Hs. unfold trim.
  assert (trimEnd s = []) as ->; [|reflexivity].
  induction s as [|c s IH]; [reflexivity|].
  simpl in *. apply andb_prop in Hs as [Hc Hs].
  now rewrite IH, Hc.
Qed.

Lemma trimStart_blank_inv s : trimStart s = [] -> forallb isWhiteSpace s = true.
Proof.
  induction s as [|c s IH]; simpl; [reflexivity|].
  destruct (isWhiteSpace c); [exact IH | discriminate].
Qed.

Lemma trimEnd_blank_inv s : trimEnd s = [] -> forallb isWhiteSpace s = true.
Proof.
  induction s as [|c s IH]; simpl; [reflexivity|].
  destruct (trimEnd s); [|discriminate].
  destruct (isWhiteSpace c); [intros _; now apply IH | discriminate].
Qed.

(** Conversely, only whitespace trims to the empty string. *)
Lemma trim_blank_inv s : trim s = [] -> forallb isWhiteSpace s = true.
Proof.
  intros Ht. destruct (trim_spec s) as (a & b & Hs & Ha & Hb).
  rewrite Hs, Ht. simpl. rewrite forallb_app. now rewrite Ha, Hb.
Qed.

(** The space the loop appends to a line is trimmed away with the rest. *)
Lemma trim_snoc_space s : trim (s ++ [SPACE]) = trim s.
Proof.
  unfold trim. f_equal.
  induction s as [|c s IH]; [reflexivity|].
  simpl. now rewrite IH.
Qed.

(** A string has no word exactly when it is made of whitespace. *)
Lemma ws_words_nil_iff s : ws_words s = [] <-> forallb isWhiteSpace s = true.
Proof.
  induction s as [|c s IH]; [now split|].
  destruct (isWhiteSpace c) eqn:Hc.
  - rewrite ws_words_cons_ws by assumption. simpl. now rewrite Hc.
  - simpl. rewrite Hc. unfold ws_words. simpl. rewrite Hc.
    pose proof (split_on_nonempty isWhiteSpace s) as Hne.
    destruct (split_on isWhiteSpace s); [congruence|].
    simpl. split; discriminate.
Qed.

(** No piece of a split holds a separator. *)
Lemma split_on_free p s :
  Forall (fun w => forallb (fun c => negb (p c)) w = true) (split_on p s).
Proof.
  induction s as [|c s IH]; simpl.
  - now repeat constructor.
  - destruct (p c) eqn:Hc.
    + now constructor.
    + destruct (split_on p s) as [|w ws];
        [constructor; [simpl; now rewrite Hc | constructor]|].
      apply Forall_cons_iff in IH as [Hw Hws].
      constructor; [|assumption]. simpl. now rewrite Hc.
Qed.

(** A whitespace-split word has a word: itself. *)
Lemma ws_words_In_has_word s w : In w (ws_words s) -> ws_words w <> [].
Proof.
  unfold ws_words at 1. intros Hw. apply filter_In in Hw as [Hin Hne].
  pose proof (split_on_free isWhiteSpace s) as Hfree.
  rewrite Forall_forall in Hfree. specialize (Hfree w Hin).
  destruct w as [|c w]; [discriminate|].
  simpl in Hfree. apply andb_prop in Hfree as [Hc _].
  rewrite ws_words_nil_iff. simpl.
  destruct (isWhiteSpace c); [discriminate | simpl; discriminate].
Qed.

End StringFacts.

Module WrapFacts.
Import JSString Compositor Layout StringFacts.

Lemma app_inj_length (A : Type) (a b x y : list A) :
  List.length a = List.length b -> a ++ x = b ++ y -> a = b /\ x = y.
Proof.
  revert b. induction a as [|c a IH]; intros [|d b] Hlen Heq;
    try discriminate; simpl in *.
  - now split.
  - injection Heq as -> Heq. injection Hlen as Hlen.
    destruct (IH _ Hlen Heq) as [-> ->]. now split.
Qed.

Lemma line_of_app g h : line_of (g ++ h) = line_of g ++ line_of h.
Proof. unfold line_of. now rewrite map_app, concat_app. Qed.

Lemma line_of_single w : line_of [w] = w ++ [SPACE].
Proof. unfold line_of. simpl. now rewrite app_nil_r. Qed.

Lemma line_of_snoc g w : line_of (g ++ [w]) = line_of g ++ w ++ [SPACE].
Proof. now rewrite line_of_app, line_of_single. Qed.

Lemma line_of_cons w g : line_of (w :: g) = w ++ SPACE :: line_of g.
Proof. unfold line_of. simpl. now rewrite <- app_assoc. Qed.

(** The words of a line are the words of its pieces. *)
Lemma ws_words_line_of g :
  ws_words (line_of g) = concat (map ws_words g).
Proof.
  induction g as [|w g IH]; [reflexivity|].
  rewrite line_of_cons, ws_words_app_sep by reflexivity.
  simpl. now rewrite IH.
Qed.

Section Metric.

Variable measureText : jsstring -> jsstring -> Q.
Variable font : jsstring.
Variable budget : Q.

Local Abbreviation wrap_loop := (wrap_loop measureText font budget).
Local Abbreviation wrap := (wrap measureText font budget).
Local Abbreviation greedy := (greedy measureText font budget).
Local Abbreviation Greedy := (Greedy measureText font budget).

(** After its first iteration the loop is the greedy placement: the
    lines already closed are kept, and the current line and the
    remaining pieces give the rest. *)
Lemma wrap_loop_greedy words :
  forall n cur lines,
    (0 < n)%nat ->
    fst (wrap_loop words n (line_of cur) lines)
      ++ [snd (wrap_loop words n (line_of cur) lines)]
    = lines ++ map line_of (greedy cur words).
Proof.
  induction words as [|w words IH]; intros n cur lines Hn; simpl.
  - reflexivity.
  - apply Nat.ltb_lt in Hn. rewrite Hn, andb_true_r.
    destruct (Qle_bool _ budget); simpl.
    + rewrite <- line_of_snoc. apply IH. lia.
    + rewrite <- line_of_single, IH by lia.
      now rewrite <- app_assoc.
Qed.

Lemma wrap_unfold text :
  wrap text
  = fst (wrap_loop (split_space text) 0 [] [])
      ++ [snd (wrap_loop (split_space text) 0 [] [])].
Proof.
  unfold Compositor.wrap.
  now destruct (wrap_loop (split_space text) 0 [] []).
Qed.

(** The first piece opens the first line whatever its width; the
    others are placed greedily. *)
Lemma wrap_greedy text :
  exists w0 rest,
    split_space text = w0 :: rest
    /\ wrap text = map line_of (greedy [w0] rest).
Proof.
  rewrite wrap_unfold.
  pose proof (split_on_nonempty is_space text) as Hne.
  unfold split_space in *.
  destruct (split_on is_space text) as [|w0 rest]; [congruence|].
  exists w0, rest. split; [reflexivity|].
  simpl. rewrite andb_false_r.
  rewrite <- line_of_single.
  now rewrite wrap_loop_greedy by lia.
Qed.

Lemma greedy_Greedy rest : forall cur, Greedy cur rest (greedy cur rest).
Proof.
  induction rest as [|w rest IH]; intros cur; simpl.
  - constructor.
  - destruct (Qle_bool _ budget) eqn:Hfit.
    + apply Greedy_join; [now apply Qle_bool_iff | apply IH].
    + apply Greedy_break; [|apply IH].
      apply Qnot_le_lt. intros Hle.
      apply Qle_bool_iff in Hle. congruence.
Qed.

(** The first group extends the pieces already on the current line. *)
Lemma Greedy_first cur rest groups :
  Greedy cur rest groups ->
  exists g0 groups', groups = (cur ++ g0) :: groups'.
Proof.
  induction 1 as [cur | cur w rest groups Hfit _ (g0 & G' & ->)
                 | cur w rest groups Hover _ _].
  - exists [], []. now rewrite app_nil_r.
  - exists (w :: g0), G'. now rewrite <- app_assoc.
  - exists [], groups. now rewrite app_nil_r.
Qed.

(** No piece is dropped, repeated or moved. *)
Lemma Greedy_concat cur rest groups :
  Greedy cur rest groups -> concat groups = cur ++ rest.
Proof.
  induction 1 as [cur | cur w rest groups _ _ IH | cur w rest groups _ _ IH];
    simpl.
  - now rewrite !app_nil_r.
  - now rewrite IH, <- app_assoc.
  - now rewrite IH.
Qed.

(** No line is without a piece. *)
Lemma Greedy_nonempty cur rest groups :
  Greedy cur rest groups -> cur <> [] -> Forall (fun g => g <> []) groups.
Proof.
  induction 1 as [cur | cur w rest groups _ _ IH | cur w rest groups _ _ IH];
    intros Hcur.
  - now constructor.
  - apply IH. now destruct cur.
  - constructor; [assumption|]. apply IH. discriminate.
Qed.

Lemma Greedy_groups_nonempty cur rest groups :
  Greedy cur rest groups -> groups <> [].
Proof.
  intros H. destruct (Greedy_first H) as (g0 & G' & ->). discriminate.
Qed.

(** A piece joined a line only when the prospective line fitted. *)
Lemma Greedy_joins cur rest groups :
  Greedy cur rest groups ->
  forall before g after p w q,
    groups = before ++ g :: after ->
    g = p ++ w :: q ->
    p <> [] ->
    (before = [] -> (List.length cur <= List.length p)%nat) ->
    measureText font (line_of p ++ w ++ [SPACE]) <= budget.
Proof.
  induction 1 as [cur | cur w0 rest groups Hfit HG IH
                 | cur w0 rest groups Hover HG IH];
    intros before g after p w q HG' Hg Hp Hlen.
  - destruct before as [|x before].
    + injection HG' as <- _. specialize (Hlen eq_refl).
      apply (f_equal (@List.length _)) in Hg.
      rewrite length_app in Hg. simpl in Hg. lia.
    + destruct before; discriminate.
  - destruct before as [|x before].
    + specialize (Hlen eq_refl).
      destruct (Nat.eq_dec (List.length p) (List.length cur)) as [Heq|Hne].
      * destruct (Greedy_first HG) as (g0 & G' & HG0).
        rewrite HG0 in HG'. simpl in HG'. injection HG' as Hg0 _.
        rewrite Hg, <- app_assoc in Hg0. simpl in Hg0.
        apply app_inj_length in Hg0 as [-> Hg0]; [|now symmetry].
        injection Hg0 as -> _. assumption.
      * eapply IH; eauto. intros _. rewrite length_app. simpl. lia.
    + eapply IH; eauto. intros; discriminate.
  - destruct before as [|x before].
    + injection HG' as <- _. specialize (Hlen eq_refl).
      apply (f_equal (@List.length _)) in Hg.
      rewrite length_app in Hg. simpl in Hg. lia.
    + injection HG' as _ HG'. eapply IH; eauto.
      intros _. simpl. destruct p; [congruence | simpl; lia].
Qed.

(** A line was closed only when the next piece did not fit on it. *)
Lemma Greedy_breaks cur rest groups :
  Greedy cur rest groups ->
  forall before g w g' after,
    groups = before ++ g :: (w :: g') :: after ->
    budget < measureText font (line_of g ++ w ++ [SPACE]).
Proof.
  induction 1 as [cur | cur w0 rest groups Hfit HG IH
                 | cur w0 rest groups Hover HG IH];
    intros before g w g' after HG'.
  - destruct before as [|x [|y before]]; discriminate.
  - eapply IH; eauto.
  - destruct before as [|x before].
    + injection HG' as <- HG'.
      destruct (Greedy_first HG) as (g0 & G' & HG0).
      rewrite HG0 in HG'. injection HG' as <- _ _. assumption.
    + injection HG' as _ HG'. eapply IH; eauto.
Qed.

(** Under a monotone metric a piece wider than the budget shares its
    line with no other piece. *)
Lemma joins_wide_alone groups :
  monotone measureText ->
  (forall before g after p w q,
      groups = before ++ g :: after -> g = p ++ w :: q -> p <> [] ->
      measureText font (line_of p ++ w ++ [SPACE]) <= budget) ->
  forall g w,
    In g groups -> In w g -> budget < measureText font w -> g = [w].
Proof.
  intros Hmono Hjoin g w Hg Hw Hwide.
  apply in_split in Hg as (before & after & HG).
  apply in_split in Hw as (p & q & Hgw).
  destruct p as [|x p].
  - destruct q as [|y q]; [assumption|]. exfalso.
    assert (Hfit := Hjoin before g after [w] y q HG).
    simpl in Hgw. specialize (Hfit Hgw ltac:(discriminate)).
    rewrite line_of_single, <- app_assoc in Hfit.
    pose proof (Hmono font [] w ([SPACE] ++ y ++ [SPACE])) as Hm.
    simpl in Hm, Hfit. apply (Qlt_irrefl budget).
    eapply Qlt_le_trans; [exact Hwide|]. eapply Qle_trans; eassumption.
  - exfalso.
    assert (Hfit := Hjoin before g after (x :: p) w q HG Hgw ltac:(discriminate)).
    pose proof (Hmono font (line_of (x :: p)) w [SPACE]) as Hm.
    apply (Qlt_irrefl budget).
    eapply Qlt_le_trans; [exact Hwide|]. eapply Qle_trans; eassumption.
Qed.

(** A line of two pieces or more was measured and found within the
    budget when its last piece joined it. *)
Lemma joins_multi_fit groups :
  (forall before g after p w q,
      groups = before ++ g :: after -> g = p ++ w :: q -> p <> [] ->
      measureText font (line_of p ++ w ++ [SPACE]) <= budget) ->
  forall g,
    In g groups ->
    (exists w, g = [w]) \/ g = [] \/ measureText font (line_of g) <= budget.
Proof.
  intros Hjoin g Hg.
  apply in_split in Hg as (before & after & HG).
  destruct g as [|x g]; [now right; left|].
  destruct g as [|y g]; [left; now exists x|].
  right; right.
  destruct (exists_last (l := x :: y :: g) ltac:(discriminate)) as (p & w & Hpw).
  rewrite Hpw, line_of_snoc.
  apply (Hjoin before (x :: y :: g) after p w []); try assumption.
  intros ->. discriminate.
Qed.

End Metric.

Lemma line_of_concat groups :
  concat (map line_of groups) = line_of (concat groups).
Proof.
  induction groups as [|g groups IH]; simpl; [reflexivity|].
  now rewrite line_of_app, IH.
Qed.

(** The wrap of a caption, per line, as groups of its space-delimited
    pieces. *)
Lemma wrap_groups measureText font budget text :
  exists groups,
    wrap measureText font budget text = map line_of groups
    /\ concat groups = split_space text
    /\ groups <> []
    /\ Forall (fun g => g <> []) groups
    /\ (forall before g after p w q,
          groups = before ++ g :: after -> g = p ++ w :: q -> p <> [] ->
          measureText font (line_of p ++ w ++ [SPACE]) <= budget)
    /\ (forall before g w g' after,
          groups = before ++ g :: (w :: g') :: after ->
          budget < measureText font (line_of g ++ w ++ [SPACE])).
Proof.
  destruct (wrap_greedy measureText font budget text) as (w0 & rest & Hsplit & Hwrap).
  pose proof (greedy_Greedy measureText font budget rest [w0]) as HG.
  exists (greedy measureText font budget [w0] rest).
  split; [assumption|].
  split; [rewrite Hsplit; apply (Greedy_concat HG)|].
  split; [apply (Greedy_groups_nonempty HG)|].
  split; [apply (Greedy_nonempty HG); discriminate|].
  split.
  - intros before g after p w q HG' Hg Hp.
    eapply Greedy_joins; eauto.
    intros _. destruct p; [congruence | simpl; lia].
  - intros before g w g' after HG'.
    eapply Greedy_breaks; eauto.
Qed.

End WrapFacts.

Module NumberFacts.
Import JSString JSNumber.

Lemma digit_value_decimal c :
  is_decimal_digit c -> digit_value 10 c = Some (c - 48)%N.
Proof.
  intros [Hlo Hhi]. unfold digit_value.
  apply N.leb_le in Hlo as Hlo'. apply N.leb_le in Hhi as Hhi'.
  rewrite Hlo', Hhi'. simpl.
  assert ((c - 48 <? 10)%N = true) as -> by (apply N.ltb_lt; lia).
  reflexivity.
Qed.

Lemma decimal_digit_not_whitespace c :
  is_decimal_digit c -> isWhiteSpace c = false.
Proof.
  intros [Hlo Hhi]. unfold isWhiteSpace. simpl.
  repeat match goal with
         | |- context [N.eqb c ?k] =>
             replace (N.eqb c k) with false by (symmetry; apply N.eqb_neq; lia)
         end.
  simpl. apply andb_false_iff. left. apply N.leb_gt. lia.
Qed.

Lemma parse_digits_decimal_app ds :
  forall acc seen rest,
    Forall is_decimal_digit ds ->
    parse_digits 10 acc seen (ds ++ rest)
    = parse_digits 10 (decimal_value acc ds) (seen || truthy ds) rest.
Proof.
  induction ds as [|d ds IH]; intros acc seen rest Hds; simpl.
  - now rewrite orb_false_r.
  - inversion Hds as [|? ? Hd Hds']; subst.
    rewrite (digit_value_decimal Hd), IH by assumption.
    now rewrite orb_true_r.
Qed.

Lemma decimal_value_snoc acc ds d :
  decimal_value acc (ds ++ [d]) = (10 * decimal_value acc ds + (d - 48))%N.
Proof. unfold decimal_value. now rewrite fold_left_app. Qed.

Lemma digits_fuel_decimal fuel :
  forall n, Forall is_decimal_digit (digits_fuel fuel n).
Proof.
  induction fuel as [|f IH]; intros n; cbn [digits_fuel]; [constructor|].
  apply Forall_app. split.
  - destruct (n <? 10)%N; [constructor | apply IH].
  - constructor; [|constructor].
    pose proof (N.mod_lt n 10 ltac:(discriminate)) as Hmod.
    unfold is_decimal_digit. generalize dependent (n mod 10)%N. intros; lia.
Qed.

(** Printing then reading a natural number gives it back. *)
Lemma digits_fuel_value fuel :
  forall n, (n < 2 ^ N.of_nat fuel)%N -> decimal_value 0 (digits_fuel fuel n) = n.
Proof.
  induction fuel as [|f IH]; intros n Hn.
  - simpl in *. change (2 ^ 0)%N with 1%N in Hn.
    assert (n = 0%N) as -> by lia. reflexivity.
  - cbn [digits_fuel]. rewrite decimal_value_snoc.
    pose proof (N.mod_lt n 10 ltac:(discriminate)) as Hmod.
    destruct (N.ltb_spec n 10) as [Hsmall | Hbig].
    + rewrite N.mod_small by assumption. cbn [decimal_value fold_left]. lia.
    + rewrite IH.
      * pose proof (N.div_mod n 10 ltac:(discriminate)) as Hdiv.
        generalize dependent (n mod 10)%N. generalize dependent (n / 10)%N.
        intros; lia.
      * rewrite Nat2N.inj_succ, N.pow_succ_r' in Hn.
        apply N.Div0.div_lt_upper_bound. lia.
Qed.

Lemma digits_value n : decimal_value 0 (digits n) = n.
Proof.
  unfold digits. apply digits_fuel_value.
  rewrite Nat2N.inj_succ, N2Nat.id.
  destruct (N.eq_dec n 0) as [->|Hn]; [reflexivity|].
  apply N.log2_spec. lia.
Qed.

Lemma digits_decimal n : Forall is_decimal_digit (digits n).
Proof. apply digits_fuel_decimal. Qed.

Lemma digits_nonempty n : truthy (digits n) = true.
Proof.
  unfold digits. cbn [digits_fuel].
  destruct (if (n <? 10)%N then _ else _); reflexivity.
Qed.

(** [parseInt] reads back the integer printed at the front of a string,
    when what follows is neither a digit nor an [x]. *)
Lemma parseInt_digits n c rest :
  digit_value 10 c = None -> c <> 120%N -> c <> 88%N ->
  parseInt (digits n ++ c :: rest) = Some (Z.of_N n).
Proof.
  intros Hdig Hx HX.
  pose proof (digits_decimal n) as Hds.
  pose proof (digits_nonempty n) as Hne.
  pose proof (digits_value n) as Hval.
  unfold parseInt.
  destruct (digits n) as [|d ds] eqn:Hdigits; [discriminate|].
  pose proof Hds as Hall.
  apply Forall_cons_iff in Hds as [Hd Hds'].
  cbn [app trimStart]. rewrite (decimal_digit_not_whitespace Hd).
  assert (Hd45 : (d =? 45)%N = false) by (apply N.eqb_neq; destruct Hd; lia).
  assert (Hd43 : (d =? 43)%N = false) by (apply N.eqb_neq; destruct Hd; lia).
  rewrite Hd45, Hd43. cbn [orb].
  assert (Hhex : match ds ++ c :: rest with
                 | x :: _ => ((d =? 48) && ((x =? 120) || (x =? 88)))%N
                 | [] => false
                 end = false).
  { destruct ds as [|x ds]; cbn [app].
    - apply N.eqb_neq in Hx, HX. rewrite Hx, HX. apply andb_false_r.
    - apply Forall_cons_iff in Hds' as [[Hlo Hhi] _].
      assert ((x =? 120)%N = false) as -> by (apply N.eqb_neq; lia).
      assert ((x =? 88)%N = false) as -> by (apply N.eqb_neq; lia).
      apply andb_false_r. }
  rewrite Hhex.
  change (d :: ds ++ c :: rest) with ((d :: ds) ++ c :: rest).
  rewrite parse_digits_decimal_app by assumption.
  cbn [parse_digits truthy orb]. rewrite Hdig, Hval. reflexivity.
Qed.

End NumberFacts.

(** ** Font size, line height and vertical layout (lines 141, 170-176) *)
Module Typography.
Import JSString JSNumber Compositor Layout NumberFacts.

Lemma fontSize_cases (W : N) :
  ((W <= 400)%N /\ fontSize W = 20)
  \/ ((400 < W)%N /\ fontSize W = inject_Z (Z.of_N W) / 20).
Proof.
  unfold fontSize, Qmax, GenericMinMax.gmax.
  destruct (20 ?= inject_Z (Z.of_N W) / 20) eqn:Hcmp.
  - left. split; [|reflexivity].
    apply Qeq_alt in Hcmp. unfold Qeq in Hcmp. cbn in Hcmp. lia.
  - right. split; [|reflexivity].
    apply Qlt_alt in Hcmp. unfold Qlt in Hcmp. cbn in Hcmp. lia.
  - left. split; [|reflexivity].
    apply Qgt_alt in Hcmp. unfold Qlt in Hcmp. cbn in Hcmp. lia.
Qed.

Lemma Number_toString_twentieth (W : N) :
  Number_toString (inject_Z (Z.of_N W) / 20)
  = digits (W / 20)
      ++ (if (W mod 20 =? 0)%N then []
          else 46%N :: frac_digits 17 (W mod 20) 20).
Proof.
  unfold Number_toString, unsigned_toString.
  cbn [Qdiv Qmult Qinv inject_Z Qnum Qden Qopp Pos.mul].
  rewrite Z.mul_1_r, N2Z.id.
  assert ((Z.of_N W <? 0)%Z = false) as -> by (apply Z.ltb_ge; lia).
  reflexivity.
Qed.

(** The integer [parseInt] reads at the front of [ctx.font] is the font
    size without its fraction. *)
Lemma parseInt_ctx_font (W : N) :
  parseInt (ctx_font W) = Some (Z.of_N (N.max 20 (W / 20))).
Proof.
  unfold ctx_font.
  destruct (fontSize_cases W) as [[HW ->] | [HW ->]].
  - assert (N.max 20 (W / 20) = 20%N) as ->.
    { apply N.max_l. apply N.Div0.div_le_upper_bound. lia. }
    reflexivity.
  - assert (N.max 20 (W / 20) = (W / 20)%N) as ->.
    { apply N.max_r. apply N.div_le_lower_bound; lia. }
    rewrite Number_toString_twentieth, <- app_assoc.
    destruct (W mod 20 =? 0)%N.
    + apply parseInt_digits; [reflexivity | discriminate | discriminate].
    + apply parseInt_digits; [reflexivity | discriminate | discriminate].
Qed.

(** The line height is 1.2 times the whole part of the font size. *)
Lemma lineHeight_ctx_font (W : N) :
  lineHeight (ctx_font W)
  = Some (inject_Z (Z.of_N (N.max 20 (W / 20))) * (12 # 10)).
Proof. unfold lineHeight. now rewrite parseInt_ctx_font. Qed.



(** C4 (the code at the failing input). On a 1024 wide image the font
    size is 51.2 and [ctx.font] reads ["51.2px Inter, sans-serif"];
    [parseInt] keeps 51, so the line height is 51 * 1.2 = 61.2 and not
    51.2 * 1.2 = 61.44. *)
Theorem lineHeight_drops_fraction :
  fontSize 1024 == 512 # 10
  /\ ctx_font 1024 = lit "51.2px Inter, sans-serif"
  /\ parseInt (ctx_font 1024) = Some 51%Z
  /\ lineHeight (ctx_font 1024) = Some (inject_Z 51 * (12 # 10))
  /\ inject_Z 51 * (12 # 10) == 612 # 10
  /\ fontSize 1024 * (12 # 10) == 6144 # 100
  /\ ~ inject_Z 51 * (12 # 10) == fontSize 1024 * (12 # 10).
Proof.
  repeat split; try reflexivity.
  vm_compute. discriminate.
Qed.

(** The line height is 1.2 times the font size exactly when the font
    size is a whole number: for widths up to 400 and for multiples of
    20. *)
Lemma lineHeight_exact_iff (W : N) :
  (exists lh, lineHeight (ctx_font W) = Some lh /\ lh == fontSize W * (12 # 10))
  <-> ((W <= 400)%N \/ (W mod 20 = 0)%N).
Proof.
  rewrite lineHeight_ctx_font.
  pose proof (N.div_mod W 20 ltac:(discriminate)) as Hdiv.
  pose proof (N.mod_lt W 20 ltac:(discriminate)) as Hmod.
  assert (Hcases := fontSize_cases W).
  generalize dependent (W mod 20)%N. generalize dependent (W / 20)%N.
  intros q r Hdiv Hmod.
  split.
  - intros (lh & [= <-] & Heq).
    destruct Hcases as [[HW _] | [HW Hfs]]; [now left | right].
    rewrite Hfs in Heq. rewrite N.max_r in Heq by lia.
    unfold Qeq in Heq. cbn in Heq. lia.
  - intros Hor. eexists. split; [reflexivity|].
    destruct Hcases as [[HW ->] | [HW ->]].
    + rewrite N.max_l by lia. reflexivity.
    + destruct Hor as [Hle | ->]; [lia|].
      rewrite N.max_r by lia.
      unfold Qeq. cbn. lia.
Qed.

Lemma text_ys_fillLines style x lh lines :
  forall y i y',
    nth_error (text_ys (fillLines style x y lh lines)) i = Some y' ->
    y' == y + inject_Z (Z.of_nat i) * lh.
Proof.
  induction lines as [|l lines IH]; intros y i y' Hnth.
  - destruct i; discriminate.
  - destruct i as [|i]; simpl in Hnth.
    + injection Hnth as <-. cbn. ring.
    + apply IH in Hnth. rewrite Hnth.
      rewrite Nat2Z.inj_succ. unfold Z.succ. rewrite inject_Z_plus. ring.
Qed.

Lemma text_ys_fillLines_length style x y lh lines :
  List.length (text_ys (fillLines style x y lh lines)) = List.length lines.
Proof.
  revert y. induction lines as [|l lines IH]; intros y; simpl; [reflexivity|].
  now rewrite IH.
Qed.

Lemma texts_drawn_fillLines style x y lh lines :
  texts_drawn (fillLines style x y lh lines) = map trim lines.
Proof.
  revert y. induction lines as [|l lines IH]; intros y; simpl; [reflexivity|].
  now rewrite IH.
Qed.

(** The layout in exact arithmetic, which the binary64 coordinates of
    the program approximate ([Binary64] has the program's own): with [n]
    lines and the line height [lh], line [i] is at
    H/2 - (n-1)*lh/2 + i*lh, each next one [lh] lower, the first and the
    last at equal distances from the middle of the canvas. *)
Lemma lines_vertically_centered measureText (imageUrl text : jsstring) (W H : N) :
  let lines := wrap measureText (ctx_font W) (maxWidth W) text in
  let n := inject_Z (Z.of_nat (List.length lines)) in
  let ys := text_ys (ops (onload measureText imageUrl text W H)) in
  let middle := inject_Z (Z.of_N H) / 2 in
  exists lh,
    lineHeight (ctx_font W) = Some lh
    /\ texts_drawn (ops (onload measureText imageUrl text W H)) = map trim lines
    /\ List.length ys = List.length lines
    /\ (forall y, nth_error ys 0 = Some y -> y == middle - (n - 1) * lh / 2)
    /\ (forall i y y',
          nth_error ys i = Some y -> nth_error ys (S i) = Some y' ->
          y' == y + lh)
    /\ (forall i y,
          nth_error ys i = Some y ->
          y == middle - (n - 1) * lh / 2 + inject_Z (Z.of_nat i) * lh)
    /\ (forall y0 yl,
          nth_error ys 0 = Some y0 ->
          nth_error ys (List.length lines - 1) = Some yl ->
          y0 - middle == middle - yl).
Proof.
  cbv zeta. unfold onload. cbn [ops font style_of].
  rewrite lineHeight_ctx_font.
  eexists. split; [reflexivity|].
  cbn [texts_drawn text_ys].
  set (lines := wrap measureText (ctx_font W) (maxWidth W) text).
  set (lh := inject_Z (Z.of_N (N.max 20 (W / 20))) * (12 # 10)).
  split; [apply texts_drawn_fillLines|].
  split; [apply text_ys_fillLines_length|].
  split; [|split; [|split]].
  - intros y Hy. apply text_ys_fillLines in Hy. rewrite Hy. cbn. ring.
  - intros i y y' Hy Hy'.
    apply text_ys_fillLines in Hy, Hy'. rewrite Hy, Hy'.
    rewrite Nat2Z.inj_succ. unfold Z.succ. rewrite inject_Z_plus. ring.
  - intros i y Hy. now apply text_ys_fillLines in Hy.
  - intros y0 yl Hy0 Hyl.
    assert (Hlen : (0 < List.length lines)%nat).
    { erewrite <- text_ys_fillLines_length.
      apply nth_error_Some. rewrite Hy0. discriminate. }
    apply text_ys_fillLines in Hy0, Hyl. rewrite Hy0, Hyl.
    replace (Z.of_nat (List.length lines - 1))
      with (Z.of_nat (List.length lines) - 1)%Z by lia.
    unfold Zminus. rewrite inject_Z_plus. cbn. field.
Qed.

End Typography.

(** ** The word wrap (lines 151-167) *)
Module Wrapping.
Import JSString Compositor Layout Examples StringFacts WrapFacts.

Lemma fixed_pitch_monotone advance :
  0 <= advance -> monotone (fixed_pitch advance).
Proof.
  intros Ha font a s b. unfold fixed_pitch.
  rewrite !(Qmult_comm advance).
  apply Qmult_le_compat_r; [|assumption].
  rewrite <- Zle_Qle. rewrite !length_app. lia.
Qed.

(** C1 (as stated, refuted). On a 1024 wide image, with a fixed-pitch
    metric of 30 units, the caption [" Supercali..."] splits at its
    leading space into an empty piece and the word: the loop closes its
    first line although that line holds no word, and draws two lines
    where the wrap of the specification (whitespace-split words, a line
    closed only when it has a word) draws one. *)
Lemma wrap_closes_a_wordless_line :
  let measureText := fixed_pitch 30 in
  let word := lit "Supercalifragilisticexpialidocious" in
  wrap measureText (ctx_font 1024) (maxWidth 1024) led_caption
    = [[SPACE]; word ++ [SPACE]]
  /\ ws_words [SPACE] = []
  /\ ws_words led_caption = [word]
  /\ spec_wrap measureText (ctx_font 1024) (maxWidth 1024) led_caption = [word]
  /\ map trim (wrap measureText (ctx_font 1024) (maxWidth 1024) led_caption)
       <> map trim (spec_wrap measureText (ctx_font 1024) (maxWidth 1024) led_caption).
Proof.
  cbv zeta. repeat split; try (vm_compute; reflexivity).
  vm_compute. discriminate.
Qed.

(** C1 (amended). The wrap places the pieces of the caption between
    single space characters ([split(' ')], empty pieces included), in
    order and whole, one group of pieces per line: no piece is dropped
    and there is at least one line (the line in progress is always
    emitted); a piece after the first of its line joined it because the
    prospective line (current line, piece, trailing space) measured at
    most 0.8*W; a line was closed, and the next opened with the
    candidate piece, because the prospective line measured more than
    0.8*W; the first piece opens the first line unmeasured.  Under a
    monotone metric a piece wider than the budget is alone on its line. *)
Theorem wrap_is_greedy_on_space_pieces measureText (W : N) (text : jsstring) :
  exists groups,
    wrap measureText (ctx_font W) (maxWidth W) text = map line_of groups
    /\ concat groups = split_space text
    /\ groups <> []
    /\ Forall (fun g => g <> []) groups
    /\ (forall before g after p w q,
          groups = before ++ g :: after -> g = p ++ w :: q -> p <> [] ->
          measureText (ctx_font W) (line_of p ++ w ++ [SPACE]) <= maxWidth W)
    /\ (forall before g w g' after,
          groups = before ++ g :: (w :: g') :: after ->
          maxWidth W < measureText (ctx_font W) (line_of g ++ w ++ [SPACE]))
    /\ (monotone measureText ->
        forall g w,
          In g groups -> In w g -> maxWidth W < measureText (ctx_font W) w ->
          g = [w]).
Proof.
  destruct (wrap_groups measureText (ctx_font W) (maxWidth W) text)
    as (groups & Hwrap & Hconcat & Hne & Hall & Hjoin & Hbreak).
  exists groups. repeat (split; [assumption|]).
  intros Hmono. now apply joins_wide_alone.
Qed.

Lemma wrap_is_greedy_on_space_pieces_witness :
  monotone (fixed_pitch 30)
  /\ exists groups,
      wrap (fixed_pitch 30) (ctx_font 1024) (maxWidth 1024) led_caption
        = map line_of groups
      /\ concat groups = split_space led_caption
      /\ groups <> []
      /\ Forall (fun g => g <> []) groups
      /\ (forall before g after p w q,
            groups = before ++ g :: after -> g = p ++ w :: q -> p <> [] ->
            fixed_pitch 30 (ctx_font 1024) (line_of p ++ w ++ [SPACE])
              <= maxWidth 1024)
      /\ (forall before g w g' after,
            groups = before ++ g :: (w :: g') :: after ->
            maxWidth 1024
              < fixed_pitch 30 (ctx_font 1024) (line_of g ++ w ++ [SPACE]))
      /\ (monotone (fixed_pitch 30) ->
          forall g w,
            In g groups -> In w g ->
            maxWidth 1024 < fixed_pitch 30 (ctx_font 1024) w ->
            g = [w]).
Proof.
  split.
  - apply fixed_pitch_monotone. discriminate.
  - exact (wrap_is_greedy_on_space_pieces (fixed_pitch 30) 1024 led_caption).
Defined.

(** On its first iteration the loop has an empty line; afterwards the
    line holds a word, when every piece does. *)
Lemma wrap_loop_meets_spec measureText font budget words :
  forall n line lines,
    Forall (fun w => ws_words w <> []) words ->
    (n = 0%nat /\ line = [] \/ (0 < n)%nat /\ ws_words line <> []) ->
    spec_wrap_loop measureText font budget words line (map trimEnd lines)
    = (map trimEnd (fst (wrap_loop measureText font budget words n line lines)),
       snd (wrap_loop measureText font budget words n line lines)).
Proof.
  induction words as [|w words IH]; intros n line lines Hwords Hinv;
    [reflexivity|].
  apply Forall_cons_iff in Hwords as [Hw Hwords].
  cbn [spec_wrap_loop wrap_loop].
  assert (Hguard : negb (Nat.eqb (List.length (ws_words line)) 0) = (0 <? n)%nat).
  { destruct Hinv as [[-> ->] | [Hn Hline]]; [reflexivity|].
    apply Nat.ltb_lt in Hn. rewrite Hn.
    destruct (ws_words line); [congruence | reflexivity]. }
  rewrite Hguard.
  destruct (negb (Qle_bool _ budget) && (0 <? n)%nat).
  - rewrite <- IH; [now rewrite map_app | assumption |].
    right. split; [lia|]. now rewrite ws_words_snoc_space.
  - apply IH; [assumption|].
    right. split; [lia|].
    rewrite app_assoc, ws_words_snoc_space, ws_words_nil_iff, forallb_app.
    rewrite ws_words_nil_iff in Hw.
    destruct (forallb isWhiteSpace w); [congruence|].
    rewrite andb_false_r. discriminate.
Qed.

(** Where the two notions of word coincide (the caption's words are
    separated by single spaces, with no space before or after and no
    other whitespace) the loop is the wrap of the specification: same
    lines, up to the trailing space the loop trims when it draws. *)
Lemma wrap_meets_spec_on_single_spaced measureText font budget text :
  split_space text = ws_words text ->
  spec_wrap measureText font budget text
  = map trimEnd (wrap measureText font budget text).
Proof.
  intros Hsame. rewrite wrap_unfold. unfold spec_wrap.
  change (@nil jsstring) with (map trimEnd []) at 1.
  rewrite <- Hsame.
  rewrite (@wrap_loop_meets_spec measureText font budget (split_space text) 0 [] []).
  - cbn [map]. now rewrite map_app.
  - rewrite Hsame. apply Forall_forall. intros w Hw.
    now apply ws_words_In_has_word with (s := text).
  - now left.
Qed.

(** C2. The words of the lines are the words of the caption, in order:
    whitespace-splitting the concatenation of the lines, or each line in
    turn, or each line as drawn (trimmed), gives the whitespace-split
    word sequence of the caption. *)
Theorem wrap_preserves_words measureText font budget (text : jsstring) :
  let lines := wrap measureText font budget text in
  ws_words (concat lines) = ws_words text
  /\ concat (map ws_words lines) = ws_words text
  /\ concat (map (fun l => ws_words (trim l)) lines) = ws_words text.
Proof.
  cbv zeta.
  destruct (wrap_groups measureText font budget text)
    as (groups & -> & Hconcat & _).
  assert (Hall : ws_words (concat (map line_of groups)) = ws_words text).
  { rewrite line_of_concat, Hconcat.
    unfold line_of. rewrite split_space_join. apply ws_words_snoc_space. }
  assert (Hper : concat (map ws_words (map line_of groups)) = ws_words text).
  { rewrite <- Hall, line_of_concat, ws_words_line_of.
    clear. induction groups as [|g groups IH]; simpl; [reflexivity|].
    now rewrite map_app, concat_app, IH, ws_words_line_of. }
  repeat split; try assumption.
  rewrite <- Hper. f_equal. rewrite !map_map.
  apply map_ext. intros g. apply ws_words_trim.
Qed.

(** C3 (as stated, refuted). Two words joined by a tab are one piece for
    [split(' ')]: on a 1024 wide image with a fixed-pitch metric of 30
    units they stay on one line, which has two words and is wider than
    the budget both as measured and as drawn, although each word alone
    is within it. *)
Lemma tab_joined_words_overflow :
  let measureText := fixed_pitch 30 in
  let word := lit "Congratulations" in
  wrap measureText (ctx_font 1024) (maxWidth 1024) tabbed_caption
    = [tabbed_caption ++ [SPACE]]
  /\ ws_words (tabbed_caption ++ [SPACE]) = [word; word]
  /\ measureText (ctx_font 1024) word <= maxWidth 1024
  /\ maxWidth 1024 < measureText (ctx_font 1024) (trim (tabbed_caption ++ [SPACE]))
  /\ maxWidth 1024 < measureText (ctx_font 1024) (tabbed_caption ++ [SPACE])
  /\ ~ claimed_within_budget measureText 1024 tabbed_caption.
Proof.
  cbv zeta.
  assert (Hwrap : wrap (fixed_pitch 30) (ctx_font 1024) (maxWidth 1024) tabbed_caption
                  = [tabbed_caption ++ [SPACE]]) by (vm_compute; reflexivity).
  repeat split; try (vm_compute; reflexivity); try (vm_compute; discriminate).
  intros Hclaim.
  destruct (Hclaim (tabbed_caption ++ [SPACE])) as [Hle | (w & Hw & _)].
  - rewrite Hwrap. now left.
  - revert Hle. vm_compute. intros Hle. now apply Hle.
  - revert Hw. vm_compute. discriminate.
Qed.

(** C3 (amended). Every line of the wrap measures at most 0.8*W, except
    a line that consists of a single space-delimited piece of the
    caption (which may hold tabs or other whitespace that is not a
    space) wider than the budget: with the widths the loop measures
    (the line with its trailing space), and, under a monotone metric,
    with the line as drawn and the piece on its own. *)
Theorem wrap_lines_within_budget measureText (W : N) (text l : jsstring) :
  In l (wrap measureText (ctx_font W) (maxWidth W) text) ->
  (measureText (ctx_font W) l <= maxWidth W
   \/ exists w, In w (split_space text) /\ l = w ++ [SPACE]
                /\ maxWidth W < measureText (ctx_font W) l)
  /\ (monotone measureText ->
      measureText (ctx_font W) (trim l) <= maxWidth W
      \/ exists w, In w (split_space text) /\ l = w ++ [SPACE]
                   /\ maxWidth W < measureText (ctx_font W) w).
Proof.
  intros Hl.
  destruct (wrap_groups measureText (ctx_font W) (maxWidth W) text)
    as (groups & Hwrap & Hconcat & _ & Hall & Hjoin & _).
  rewrite Hwrap in Hl. apply in_map_iff in Hl as (g & <- & Hg).
  assert (Hin : forall w, In w g -> In w (split_space text)).
  { intros w Hw. rewrite <- Hconcat. apply in_concat. now exists g. }
  destruct (@joins_multi_fit measureText (ctx_font W) (maxWidth W) groups Hjoin g Hg)
    as [(w & ->) | [-> | Hfit]].
  - rewrite line_of_single. split.
    + destruct (Qlt_le_dec (maxWidth W) (measureText (ctx_font W) (w ++ [SPACE])))
        as [Hover | Hfit]; [right | now left].
      exists w. repeat split; [now apply Hin; left | assumption].
    + intros Hmono.
      destruct (Qlt_le_dec (maxWidth W) (measureText (ctx_font W) w))
        as [Hover | Hfit]; [right | left].
      * exists w. repeat split; [now apply Hin; left | assumption].
      * destruct (trim_spec w) as (a & b & Hs & _ & _).
        rewrite trim_snoc_space. eapply Qle_trans; [|exact Hfit].
        rewrite Hs at 2. apply Hmono.
  - rewrite Forall_forall in Hall. now destruct (Hall [] Hg).
  - split; [now left|]. intros Hmono. left.
    eapply Qle_trans; [|exact Hfit].
    destruct (trim_spec (line_of g)) as (a & b & Hs & _ & _).
    rewrite Hs at 2. apply Hmono.
Qed.

Lemma wrap_lines_within_budget_witness :
  let text := lit "Sale Now" in
  let l := lit "Sale Now " in
  In l (wrap (fixed_pitch 30) (ctx_font 1024) (maxWidth 1024) text)
  /\ monotone (fixed_pitch 30)
  /\ (fixed_pitch 30 (ctx_font 1024) l <= maxWidth 1024
      \/ exists w, In w (split_space text) /\ l = w ++ [SPACE]
                   /\ maxWidth 1024 < fixed_pitch 30 (ctx_font 1024) l)
  /\ (monotone (fixed_pitch 30) ->
      fixed_pitch 30 (ctx_font 1024) (trim l) <= maxWidth 1024
      \/ exists w, In w (split_space text) /\ l = w ++ [SPACE]
                   /\ maxWidth 1024 < fixed_pitch 30 (ctx_font 1024) w).
Proof.
  cbv zeta.
  assert (Hin : In (lit "Sale Now ")
                  (wrap (fixed_pitch 30) (ctx_font 1024) (maxWidth 1024)
                     (lit "Sale Now")))
    by (vm_compute; left; reflexivity).
  split; [exact Hin|].
  split; [apply fixed_pitch_monotone; discriminate|].
  exact (wrap_lines_within_budget (fixed_pitch 30) 1024 (lit "Sale Now")
           (lit "Sale Now ") Hin).
Defined.

End Wrapping.

(** ** The generation client (lines 63-122) and the fallbacks of the
    compositor (lines 102-107, 181-184) *)
Module ClientFacts.
Import JSString Compositor Layout Client Examples StringFacts.

Section Generate.

Variable decode : jsstring -> option (N * N).
Variable measureText : jsstring -> jsstring -> Q.
Variable fetch : Request -> Response.

Local Abbreviation overlayTextOnImage := (overlayTextOnImage decode measureText).
Local Abbreviation per_prediction := (per_prediction decode measureText).
Local Abbreviation generateImages := (generateImages decode measureText fetch).
Local Abbreviation image_of := (image_of decode measureText).

Lemma overlay_truthy imageUrl text :
  truthy imageUrl = true ->
  truthy_url (overlayTextOnImage imageUrl text) = true.
Proof.
  intros Hurl. unfold Compositor.overlayTextOnImage.
  destruct (decode imageUrl) as [[W H]|]; [reflexivity | exact Hurl].
Qed.

Lemma per_prediction_spec customText prediction :
  per_prediction customText prediction
  = if has_payload prediction then Some (image_of customText prediction)
    else None.
Proof.
  unfold Client.per_prediction, has_payload, image_of, payload_url.
  destruct (bytesBase64Encoded prediction) as [b|]; [|reflexivity].
  destruct (truthy b); [|reflexivity].
  now destruct (truthy (trim customText)).
Qed.

Lemma image_of_truthy customText prediction :
  truthy_url (image_of customText prediction) = true.
Proof.
  unfold image_of.
  destruct (truthy (trim customText)); [apply overlay_truthy|]; reflexivity.
Qed.

(** Mapping the callback and filtering with [Boolean] keeps the
    predictions that have a payload, in their order. *)
Lemma filter_Boolean_per_prediction customText predictions :
  filter_Boolean (map (per_prediction customText) predictions)
  = map (image_of customText) (filter has_payload predictions).
Proof.
  induction predictions as [|p ps IH]; [reflexivity|].
  cbn [map filter filter_Boolean]. rewrite per_prediction_spec.
  destruct (has_payload p); [|exact IH].
  rewrite image_of_truthy. cbn [map]. now rewrite IH.
Qed.

(** The gallery after a request that passed validation and was
    answered with predictions. *)
Lemma generateImages_Ok st predictions :
  truthy (trim (prompt st)) = true ->
  truthy (trim (apiKey st)) = true ->
  fetch (request_of st) = Ok (Some predictions) ->
  generatedImages (fst (generateImages st))
  = map (image_of (customText st)) (filter has_payload predictions).
Proof.
  intros Hprompt Hkey Hfetch. unfold Client.generateImages.
  rewrite Hprompt, Hkey, Hfetch. cbn [negb fst].
  destruct predictions as [|p ps]; [reflexivity|].
  cbn [generatedImages setLoading setGeneratedImages].
  apply filter_Boolean_per_prediction.
Qed.

End Generate.

(** Scenario A: no caption, three predictions: three pass-through
    images, in order, no error. *)
Example scenario_pass_through :
  let fetch := fun _ : Request => Ok (Some [sample; sample; sample]) in
  let decode := fun _ : jsstring => Some (1024%N, 1024%N) in
  let st' := fst (generateImages decode (fixed_pitch 30) fetch (ready [])) in
  generatedImages st'
  = [Url (lit "data:image/png;base64,QUJD");
     Url (lit "data:image/png;base64,QUJD");
     Url (lit "data:image/png;base64,QUJD")]
  /\ error st' = [] /\ loading st' = false.
Proof. cbv zeta. repeat split; vm_compute; reflexivity. Qed.

(** Scenario B: the caption "Sale Now" on three 1024 x 1024 images: each
    is a canvas with the image and the one line "Sale Now", centred at
    (512, 512). *)
Example scenario_single_line :
  let fetch := fun _ : Request => Ok (Some [sample; sample; sample]) in
  let decode := fun _ : jsstring => Some (1024%N, 1024%N) in
  let st' :=
    fst (generateImages decode (fixed_pitch 30) fetch (ready (lit "Sale Now"))) in
  List.length (generatedImages st') = 3%nat
  /\ Forall
       (fun image =>
          exists style x y,
            image
            = toDataURL
                {| width := 1024; height := 1024;
                   ops := [drawImage (lit "data:image/png;base64,QUJD") 0 0;
                           fillText style (lit "Sale Now") x y] |}
            /\ x == 512 /\ y == 512)
       (generatedImages st').
Proof.
  cbv zeta. split; [vm_compute; reflexivity|].
  vm_compute. repeat constructor; do 3 eexists; repeat split; reflexivity.
Qed.

(** Scenario E: the service answers with an error: its message goes to
    the banner and the gallery stays empty. *)
Example scenario_service_error :
  let fetch := fun _ : Request => NotOk (Some (lit "API key not valid.")) in
  let decode := fun _ : jsstring => Some (1024%N, 1024%N) in
  let st' := fst (generateImages decode (fixed_pitch 30) fetch (ready [])) in
  error st' = lit "API key not valid."
  /\ generatedImages st' = [] /\ loading st' = false.
Proof. cbv zeta. repeat split; vm_compute; reflexivity. Qed.


(** C6. With a caption that is empty or made of whitespace only, the
    compositor is not called: a prediction with a payload becomes the
    data URL of that payload, unchanged, whatever the decoder would
    say; so the gallery is the payloads' data URLs, in order. *)
Theorem blank_caption_passes_through decode measureText fetch st predictions :
  forallb isWhiteSpace (customText st) = true ->
  (forall prediction,
      has_payload prediction = true ->
      per_prediction decode measureText (customText st) prediction
      = Some (Url (payload_url prediction)))
  /\ (truthy (trim (prompt st)) = true ->
      truthy (trim (apiKey st)) = true ->
      fetch (request_of st) = Ok (Some predictions) ->
      generatedImages (fst (generateImages decode measureText fetch st))
      = map (fun prediction => Url (payload_url prediction))
          (filter has_payload predictions)).
Proof.
  intros Hblank. apply trim_blank in Hblank.
  split.
  - intros prediction Hpay.
    rewrite per_prediction_spec, Hpay. unfold image_of. now rewrite Hblank.
  - intros Hprompt Hkey Hfetch.
    rewrite (generateImages_Ok decode measureText fetch st Hprompt Hkey Hfetch).
    apply map_ext. intros prediction. unfold image_of. now rewrite Hblank.
Qed.

Lemma blank_caption_passes_through_witness :
  let caption := [SPACE; 9%N; SPACE] in
  forallb isWhiteSpace (customText (ready caption)) = true
  /\ per_prediction (fun _ => Some (1024%N, 1024%N)) (fixed_pitch 30)
       (customText (ready caption)) sample
     = Some (Url (lit "data:image/png;base64,QUJD")).
Proof.
  cbv zeta. split; [reflexivity|].
  exact (proj1 (blank_caption_passes_through
                  (fun _ => Some (1024%N, 1024%N)) (fixed_pitch 30)
                  (fun _ => Ok None) (ready [SPACE; 9%N; SPACE]) []
                  eq_refl)
           sample eq_refl).
Defined.

(** C7. When the image fails to decode, [overlayTextOnImage] resolves
    with the URL it was given.  In [generateImages], a response with
    predictions leaves the error banner empty and the message untouched
    whatever the decoder does; and when nothing decodes, every retained
    prediction is shown as its own data URL. *)
Theorem decode_failure_returns_original decode measureText fetch st p ps :
  (forall imageUrl text,
      decode imageUrl = None ->
      overlayTextOnImage decode measureText imageUrl text = Url imageUrl)
  /\ (truthy (trim (prompt st)) = true ->
      truthy (trim (apiKey st)) = true ->
      fetch (request_of st) = Ok (Some (p :: ps)) ->
      let st' := fst (generateImages decode measureText fetch st) in
      error st' = []
      /\ banner_shown st' = false
      /\ message st' = message st
      /\ loading st' = false
      /\ ((forall imageUrl, decode imageUrl = None) ->
          generatedImages st'
          = map (fun prediction => Url (payload_url prediction))
              (filter has_payload (p :: ps)))).
Proof.
  split.
  - intros imageUrl text Hfail. unfold overlayTextOnImage. now rewrite Hfail.
  - intros Hprompt Hkey Hfetch. cbv zeta.
    pose proof (generateImages_Ok decode measureText fetch st Hprompt Hkey Hfetch)
      as Himages.
    unfold generateImages in *. rewrite Hprompt, Hkey, Hfetch in *.
    cbn [negb fst] in *.
    repeat split.
    intros Hfail. rewrite Himages.
    apply map_ext. intros prediction. unfold image_of, overlayTextOnImage.
    rewrite Hfail. now destruct (truthy (trim (customText st))).
Qed.

Lemma decode_failure_returns_original_witness :
  let fails := fun _ : jsstring => @None (N * N) in
  let url := lit "data:image/png;base64,QUJD" in
  fails url = None
  /\ overlayTextOnImage fails (fixed_pitch 30) url (lit "Sale Now") = Url url.
Proof.
  cbv zeta. split; [reflexivity|].
  exact (proj1 (decode_failure_returns_original
                  (fun _ : jsstring => @None (N * N)) (fixed_pitch 30)
                  (fun _ => Ok None) (ready []) sample [])
           (lit "data:image/png;base64,QUJD") (lit "Sale Now") eq_refl).
Defined.

(** C8. When the prompt or the key is empty after trimming,
    [generateImages] sends no request: it sets the message shown in the
    dismissible modal and leaves the error banner, the gallery and the
    loading flag as they were.  Otherwise it sends exactly one request. *)
Theorem validation_precedes_network decode measureText fetch st :
  let st' := fst (generateImages decode measureText fetch st) in
  let requests := snd (generateImages decode measureText fetch st) in
  if truthy (trim (prompt st)) && truthy (trim (apiKey st))
  then requests = [request_of st]
  else requests = []
       /\ modal_shown st' = true
       /\ modal_shown (handleCloseMessage st') = false
       /\ error st' = error st
       /\ banner_shown st' = banner_shown st
       /\ generatedImages st' = generatedImages st
       /\ loading st' = loading st.
Proof.
  cbv zeta. unfold generateImages.
  destruct (truthy (trim (prompt st))); cbn [negb andb].
  - destruct (truthy (trim (apiKey st))); cbn [negb fst snd].
    + reflexivity.
    + repeat split.
  - repeat split.
Qed.

End ClientFacts.

(* ------------------------------------------------------------------ *)
(** * Part III: further properties of the code *)
(* ------------------------------------------------------------------ *)

From Stdlib Require Sorted.

Module TrimFacts.
Import JSString StringFacts.

Lemma trimStart_idem s : trimStart (trimStart s) = trimStart s.
Proof.
  induction s as [|c s IH]; [reflexivity|].
  simpl. destruct (isWhiteSpace c) eqn:Hc; [exact IH|].
  simpl. now rewrite Hc.
Qed.

Lemma trimEnd_idem s : trimEnd (trimEnd s) = trimEnd s.
Proof.
  induction s as [|c s IH]; [reflexivity|].
  simpl. destruct (trimEnd s) as [|x t] eqn:Ht.
  - destruct (isWhiteSpace c) eqn:Hc; [reflexivity|].
    simpl. now rewrite Hc.
  - cbn [trimEnd] in *. now rewrite IH.
Qed.

Lemma trimEnd_trimStart s : trimEnd (trimStart s) = trimStart (trimEnd s).
Proof.
  induction s as [|c s IH]; [reflexivity|].
  cbn [trimStart]. destruct (isWhiteSpace c) eqn:Hc.
  - rewrite IH. cbn [trimEnd].
    destruct (trimEnd s) as [|x t].
    + now rewrite Hc.
    + change (trimStart (c :: x :: t))
        with (if isWhiteSpace c then trimStart (x :: t) else c :: x :: t).
      now rewrite Hc.
  - cbn [trimEnd].
    destruct (trimEnd s) as [|x t]; [rewrite Hc|]; cbn [trimStart]; now rewrite Hc.
Qed.

(** Trimming twice is trimming once. *)
Lemma trim_idem s : trim (trim s) = trim s.
Proof.
  unfold trim.
  now rewrite trimEnd_trimStart, trimEnd_idem, trimStart_idem.
Qed.

(** A separator-free string is one piece. *)
Lemma split_on_free_string p s :
  forallb (fun c => negb (p c)) s = true -> split_on p s = [s].
Proof.
  induction s as [|c s IH]; [reflexivity|].
  simpl. intros Hs. apply andb_prop in Hs as [Hc Hs].
  apply negb_true_iff in Hc. rewrite Hc, IH by assumption. reflexivity.
Qed.

(** The pieces are one more than the separators. *)
Lemma split_on_length p s :
  List.length (split_on p s) = S (List.length (filter p s)).
Proof.
  induction s as [|c s IH]; [reflexivity|].
  simpl. destruct (p c); simpl.
  - now rewrite IH.
  - pose proof (split_on_nonempty p s) as Hne.
    destruct (split_on p s); [congruence|]. exact IH.
Qed.

End TrimFacts.

(** ** The shape of the wrap (lines 151-167) *)
Module WrapShape.
Import JSString Compositor Layout Examples StringFacts WrapFacts TrimFacts.

Lemma length_concat_nonempty (groups : list (list jsstring)) :
  Forall (fun g => g <> []) groups ->
  (List.length groups <= List.length (concat groups))%nat.
Proof.
  induction 1 as [|g groups Hg _ IH]; simpl; [lia|].
  rewrite length_app. destruct g; [congruence | simpl; lia].
Qed.

(** When every prospective line fits, nothing is ever closed. *)
Lemma greedy_one_group measureText font budget rest :
  forall cur,
    (forall k, (1 <= k <= List.length rest)%nat ->
               measureText font (line_of (cur ++ firstn k rest)) <= budget) ->
    greedy measureText font budget cur rest = [cur ++ rest].
Proof.
  induction rest as [|w rest IH]; intros cur Hfit; simpl.
  - now rewrite app_nil_r.
  - assert (Hw : Qle_bool (measureText font (line_of cur ++ w ++ [SPACE])) budget = true).
    { apply Qle_bool_iff. rewrite <- line_of_snoc.
      apply (Hfit 1%nat). simpl. lia. }
    rewrite Hw, IH.
    + now rewrite <- app_assoc.
    + intros k Hk. rewrite <- app_assoc.
      apply (Hfit (S k)). simpl. lia.
Qed.

Lemma wrap_at_least_one_line measureText font budget (text : jsstring) :
  (1 <= List.length (wrap measureText font budget text))%nat.
Proof.
  destruct (wrap_groups measureText font budget text)
    as (groups & -> & _ & Hne & _).
  rewrite length_map. destruct groups; [congruence | simpl; lia].
Qed.

(** X1. Joined end to end, the lines are the caption itself followed by
    one space: the wrap moves no code unit, drops none and adds only the
    space after the last piece. *)
Theorem wrap_concat_is_caption measureText font budget (text : jsstring) :
  concat (wrap measureText font budget text) = text ++ [SPACE].
Proof.
  destruct (wrap_groups measureText font budget text)
    as (groups & -> & Hconcat & _).
  rewrite line_of_concat, Hconcat. apply split_space_join.
Qed.

(** X2. There is at least one line, and no more lines than pieces: at
    most one more than the caption has space characters.  Every line ends
    with the space the loop appends, so none is the empty string. *)
Theorem wrap_line_count measureText font budget (text : jsstring) :
  let lines := wrap measureText font budget text in
  (1 <= List.length lines)%nat
  /\ (List.length lines <= S (List.length (filter is_space text)))%nat
  /\ Forall (fun l => exists l', l = l' ++ [SPACE]) lines.
Proof.
  cbv zeta.
  destruct (wrap_groups measureText font budget text)
    as (groups & -> & Hconcat & Hne & Hall & _).
  rewrite length_map. repeat split.
  - destruct groups; [congruence | simpl; lia].
  - unfold split_space in Hconcat.
    rewrite <- split_on_length, <- Hconcat.
    now apply length_concat_nonempty.
  - apply Forall_map. eapply Forall_impl; [|exact Hall].
    intros g Hg. destruct (exists_last Hg) as (p & w & ->).
    exists (line_of p ++ w). rewrite line_of_snoc. now rewrite <- app_assoc.
Qed.

(** X3. A caption without a space character is never wrapped: whatever
    its width and the metric, it is one line, drawn trimmed at the
    vertical middle of the canvas. *)
Theorem unbroken_caption_one_line measureText (imageUrl text : jsstring) (W H : N) :
  forallb (fun c => negb (is_space c)) text = true ->
  wrap measureText (ctx_font W) (maxWidth W) text = [text ++ [SPACE]]
  /\ texts_drawn (ops (onload measureText imageUrl text W H)) = [trim text]
  /\ exists y,
      text_ys (ops (onload measureText imageUrl text W H)) = [y]
      /\ y == inject_Z (Z.of_N H) / 2.
Proof.
  intros Hfree.
  assert (Hwrap : wrap measureText (ctx_font W) (maxWidth W) text = [text ++ [SPACE]]).
  { unfold wrap, split_space. rewrite split_on_free_string by assumption.
    cbn [wrap_loop]. now rewrite andb_false_r. }
  split; [assumption|].
  unfold onload. cbn [ops font style_of].
  rewrite Typography.lineHeight_ctx_font, Hwrap.
  cbn [texts_drawn text_ys fillLines List.length].
  split; [now rewrite trim_snoc_space|].
  eexists. split; [reflexivity|]. cbn. field.
Qed.

Lemma unbroken_caption_one_line_witness :
  let text := lit "Supercalifragilisticexpialidocious" in
  forallb (fun c => negb (is_space c)) text = true
  /\ wrap (fixed_pitch 30) (ctx_font 1024) (maxWidth 1024) text = [text ++ [SPACE]].
Proof.
  cbv zeta. split; [reflexivity|].
  exact (proj1 (unbroken_caption_one_line (fixed_pitch 30) []
                  (lit "Supercalifragilisticexpialidocious") 1024 1024 eq_refl)).
Defined.

(** X4. Under a monotone metric, a caption with at least one space is
    kept on a single line exactly when the whole caption, with the
    trailing space the loop appends, measures at most the budget. *)
Theorem single_line_iff_fits measureText font budget (text : jsstring) :
  monotone measureText ->
  existsb is_space text = true ->
  wrap measureText font budget text = [text ++ [SPACE]]
  <-> measureText font (text ++ [SPACE]) <= budget.
Proof.
  intros Hmono Hspace. split.
  - intros Hwrap.
    destruct (wrap_groups measureText font budget text)
      as (groups & Hmap & Hconcat & _ & _ & Hjoin & _).
    rewrite Hwrap in Hmap.
    destruct groups as [|g [|g' groups]]; try discriminate.
    simpl in Hconcat. rewrite app_nil_r in Hconcat. subst g.
    assert (Hlen : (2 <= List.length (split_space text))%nat).
    { unfold split_space. rewrite split_on_length.
      apply existsb_exists in Hspace as (c & Hin & Hc).
      assert (Hin' : In c (filter is_space text)) by now apply filter_In.
      destruct (filter is_space text); [destruct Hin' | simpl; lia]. }
    destruct (@joins_multi_fit measureText font budget [split_space text] Hjoin
                (split_space text) (or_introl eq_refl))
      as [(w & Hw) | [Hnil | Hfit]].
    + rewrite Hw in Hlen. simpl in Hlen. lia.
    + rewrite Hnil in Hlen. simpl in Hlen. lia.
    + unfold line_of in Hfit. now rewrite split_space_join in Hfit.
  - intros Hfit.
    destruct (wrap_greedy measureText font budget text) as (w0 & rest & Hsplit & ->).
    pose proof (split_space_join text) as Hjoin. rewrite Hsplit in Hjoin.
    fold (line_of (w0 :: rest)) in Hjoin.
    rewrite greedy_one_group.
    + cbn [map app]. now rewrite Hjoin.
    + intros k _. eapply Qle_trans; [|exact Hfit].
      rewrite <- Hjoin.
      rewrite <- (firstn_skipn k rest) at 2.
      change (w0 :: firstn k rest ++ skipn k rest)
        with (([w0] ++ firstn k rest) ++ skipn k rest).
      rewrite (line_of_app ([w0] ++ firstn k rest) (skipn k rest)).
      apply (Hmono font [] (line_of ([w0] ++ firstn k rest)) (line_of (skipn k rest))).
Qed.

Lemma single_line_iff_fits_witness :
  monotone (fixed_pitch 30)
  /\ existsb is_space (lit "Sale Now") = true
  /\ (wrap (fixed_pitch 30) (ctx_font 1024) (maxWidth 1024) (lit "Sale Now")
      = [lit "Sale Now" ++ [SPACE]]
      <-> fixed_pitch 30 (ctx_font 1024) (lit "Sale Now" ++ [SPACE]) <= maxWidth 1024).
Proof.
  assert (Hmono : monotone (fixed_pitch 30))
    by (apply Wrapping.fixed_pitch_monotone; discriminate).
  split; [exact Hmono|]. split; [reflexivity|].
  exact (single_line_iff_fits (ctx_font 1024) (maxWidth 1024) (lit "Sale Now")
           Hmono eq_refl).
Defined.

End WrapShape.

(** ** The wrap uses as few lines as possible *)
Module FewestLines.
Import JSString Compositor Layout Partition Examples StringFacts WrapFacts.

Section Metric.

Variable measureText : jsstring -> jsstring -> Q.
Variable font : jsstring.
Variable budget : Q.
Hypothesis Hmono : monotone measureText.

Local Abbreviation greedy := (greedy measureText font budget).
Local Abbreviation admissible := (admissible measureText font budget).

(** The greedy placement stays ahead of any other wrapping.  The other
    wrapping has [acur] on its current line, which will be completed by
    [x], and then the lines [later].  Whatever the greedy placement has
    on its current line, it needs at most one line more; and when its
    current line is an end part of [acur], it needs no more lines. *)
Lemma greedy_stays_ahead rest :
  forall gcur acur x later,
    gcur <> [] -> acur <> [] ->
    rest = x ++ concat later ->
    admissible (acur ++ x) ->
    Forall admissible later ->
    (List.length (greedy gcur rest) <= S (S (List.length later)))%nat
    /\ ((exists pre, acur = pre ++ gcur) ->
        (List.length (greedy gcur rest) <= S (List.length later))%nat).
Proof.
  induction rest as [|w rest IH];
    intros gcur acur x later Hg Ha Hrest Hadm Hlater.
  - simpl. split; intros; lia.
  - assert (Hsnoc : forall c : list jsstring, c ++ [w] <> [])
      by (intros [|? ?]; discriminate).
    destruct x as [|w' x].
    + (* the other wrapping closes its line before [w] *)
      destruct later as [|g1 later]; [discriminate|].
      apply Forall_cons_iff in Hlater as [Hg1 Hlater].
      destruct g1 as [|w1 y]; [now destruct Hg1|].
      simpl in Hrest. injection Hrest as <- Hrest.
      destruct (IH [w] [w] y later ltac:(discriminate) ltac:(discriminate)
                  Hrest Hg1 Hlater) as [_ IHa].
      specialize (IHa (ex_intro _ [] eq_refl)).
      destruct (IH (gcur ++ [w]) [w] y later (Hsnoc gcur) ltac:(discriminate)
                  Hrest Hg1 Hlater) as [IHb _].
      cbn [Layout.greedy]. destruct (Qle_bool _ budget); simpl in *; split; intros; lia.
    + (* the other wrapping keeps [w] on its line *)
      simpl in Hrest. injection Hrest as <- Hrest.
      assert (Hadm' : admissible ((acur ++ [w]) ++ x))
        by now rewrite <- app_assoc.
      destruct (IH [w] (acur ++ [w]) x later ltac:(discriminate) (Hsnoc acur)
                  Hrest Hadm' Hlater) as [_ IHa].
      specialize (IHa (ex_intro _ acur eq_refl)).
      cbn [Layout.greedy].
      destruct (Qle_bool _ budget) eqn:Hfit.
      * destruct (IH (gcur ++ [w]) (acur ++ [w]) x later (Hsnoc gcur) (Hsnoc acur)
                    Hrest Hadm' Hlater) as [IHb IHa'].
        split; [exact IHb|].
        intros (pre & ->). apply IHa'. exists pre. now rewrite <- app_assoc.
      * simpl. split; [lia|].
        intros (pre & ->). exfalso.
        assert (Hle : measureText font (line_of gcur ++ w ++ [SPACE]) <= budget).
        { destruct Hadm as [_ Hadm].
          eapply Qle_trans; [|apply Hadm].
          - rewrite <- line_of_snoc.
            replace ((pre ++ gcur) ++ w :: x) with (pre ++ (gcur ++ [w]) ++ x)
              by (rewrite <- !app_assoc; reflexivity).
            rewrite !line_of_app. apply Hmono.
          - rewrite length_app. simpl.
            destruct (pre ++ gcur) eqn:E; [now destruct Ha | simpl; lia]. }
        apply Qle_bool_iff in Hle. congruence.
Qed.

End Metric.

(** The lines of the wrap are themselves admissible. *)
Lemma wrap_is_wrapping measureText font budget (text : jsstring) :
  exists groups,
    wrap measureText font budget text = map line_of groups
    /\ wrapping measureText font budget (split_space text) groups.
Proof.
  destruct (wrap_groups measureText font budget text)
    as (groups & Hwrap & Hconcat & _ & Hall & Hjoin & _).
  exists groups. split; [assumption|]. split; [assumption|].
  apply Forall_forall. intros g Hg. split.
  - rewrite Forall_forall in Hall. now apply Hall.
  - intros Hlen.
    destruct (@joins_multi_fit measureText font budget groups Hjoin g Hg)
      as [(w & ->) | [-> | Hfit]]; [simpl in Hlen; lia | simpl in Hlen; lia | assumption].
Qed.

Lemma wrap_le_any_wrapping measureText font budget (text : jsstring) groups :
  monotone measureText ->
  wrapping measureText font budget (split_space text) groups ->
  (List.length (wrap measureText font budget text) <= List.length groups)%nat.
Proof.
  intros Hmono [Hconcat Hadm].
  destruct (wrap_greedy measureText font budget text) as (w0 & rest & Hsplit & ->).
  rewrite length_map. rewrite Hsplit in Hconcat.
  destruct groups as [|g0 later]; [discriminate|].
  apply Forall_cons_iff in Hadm as [Hg0 Hlater].
  destruct g0 as [|w x]; [now destruct Hg0|].
  simpl in Hconcat. injection Hconcat as -> Hrest.
  destruct (@greedy_stays_ahead measureText font budget Hmono rest [w0] [w0] x later
              ltac:(discriminate) ltac:(discriminate) (eq_sym Hrest) Hg0 Hlater)
    as [_ Ha].
  simpl. apply Ha. now exists [].
Qed.

(** X5. The lines of the wrap are a wrapping of the caption's pieces into
    admissible lines (a single piece, or several measuring within the
    budget), and, under a monotone metric, no such wrapping has fewer
    lines. *)
Theorem wrap_has_fewest_lines measureText font budget (text : jsstring) :
  monotone measureText ->
  (exists groups,
      wrap measureText font budget text = map line_of groups
      /\ wrapping measureText font budget (split_space text) groups)
  /\ (forall groups,
        wrapping measureText font budget (split_space text) groups ->
        (List.length (wrap measureText font budget text) <= List.length groups)%nat).
Proof.
  intros Hmono. split.
  - apply wrap_is_wrapping.
  - intros groups. now apply wrap_le_any_wrapping.
Qed.

Lemma wrap_has_fewest_lines_witness :
  monotone (fixed_pitch 30)
  /\ forall groups,
      wrapping (fixed_pitch 30) (ctx_font 1024) (maxWidth 1024)
        (split_space (lit "Sale Now")) groups ->
      (List.length (wrap (fixed_pitch 30) (ctx_font 1024) (maxWidth 1024)
                      (lit "Sale Now"))
       <= List.length groups)%nat.
Proof.
  assert (Hmono : monotone (fixed_pitch 30))
    by (apply Wrapping.fixed_pitch_monotone; discriminate).
  split; [exact Hmono|].
  exact (proj2 (wrap_has_fewest_lines (ctx_font 1024) (maxWidth 1024)
                  (lit "Sale Now") Hmono)).
Defined.

(** X6. Under a monotone metric and with the same font, a larger budget
    never costs a line: the wrap for the larger budget has at most as
    many lines as the wrap for the smaller. *)
Theorem larger_budget_no_more_lines measureText font budget budget' (text : jsstring) :
  monotone measureText ->
  budget <= budget' ->
  (List.length (wrap measureText font budget' text)
   <= List.length (wrap measureText font budget text))%nat.
Proof.
  intros Hmono Hle.
  destruct (wrap_is_wrapping measureText font budget text)
    as (groups & -> & Hconcat & Hadm).
  rewrite length_map. apply wrap_le_any_wrapping; [assumption|].
  split; [assumption|].
  eapply Forall_impl; [|exact Hadm].
  intros g [Hne Hfit]. split; [assumption|].
  intros Hlen. eapply Qle_trans; [now apply Hfit | exact Hle].
Qed.

Lemma larger_budget_no_more_lines_witness :
  monotone (fixed_pitch 30)
  /\ maxWidth 300 <= maxWidth 390
  /\ (List.length (wrap (fixed_pitch 30) (ctx_font 390) (maxWidth 390) (lit "Sale Now"))
      <= List.length
           (wrap (fixed_pitch 30) (ctx_font 390) (maxWidth 300) (lit "Sale Now")))%nat.
Proof.
  assert (Hmono : monotone (fixed_pitch 30))
    by (apply Wrapping.fixed_pitch_monotone; discriminate).
  assert (Hle : maxWidth 300 <= maxWidth 390) by discriminate.
  split; [exact Hmono|]. split; [exact Hle|].
  exact (larger_budget_no_more_lines (ctx_font 390) (lit "Sale Now") Hmono Hle).
Defined.

End FewestLines.

(** ** The canvas [overlayTextOnImage] draws (lines 130-179) *)
Module CanvasShape.
Import JSString JSNumber Compositor Layout Examples StringFacts TrimFacts.

Lemma fillLines_length style x y lh lines :
  List.length (fillLines style x y lh lines) = List.length lines.
Proof.
  revert y. induction lines as [|l lines IH]; intros y; simpl; [reflexivity|].
  now rewrite IH.
Qed.

Lemma fillLines_each style x lh lines :
  forall y,
    Forall (fun op => exists t y', op = fillText style t x y' /\ trim t = t)
      (fillLines style x y lh lines).
Proof.
  induction lines as [|l lines IH]; intros y; simpl; constructor.
  - exists (trim l), y. split; [reflexivity | apply trim_idem].
  - apply IH.
Qed.

(** X8. When the image decodes, the result is a canvas of the size of the
    image on which the image is drawn first, at the origin, and then one
    text per line of the wrap (at least one, even for an empty caption):
    each with the same style, horizontally centred at W/2, and without
    whitespace at either end. *)
Theorem overlay_canvas_shape decode measureText (imageUrl text : jsstring) (W H : N) :
  decode imageUrl = Some (W, H) ->
  exists texts,
    overlayTextOnImage decode measureText imageUrl text
    = toDataURL {| width := W; height := H;
                   ops := drawImage imageUrl 0 0 :: texts |}
    /\ List.length texts
       = List.length (wrap measureText (ctx_font W) (maxWidth W) text)
    /\ (1 <= List.length texts)%nat
    /\ Forall
         (fun op =>
            exists t y,
              op = fillText (style_of W) t (inject_Z (Z.of_N W) / 2) y
              /\ trim t = t)
         texts.
Proof.
  intros Hdecode. unfold overlayTextOnImage, onload. rewrite Hdecode.
  cbn [font style_of]. rewrite Typography.lineHeight_ctx_font.
  eexists. split; [reflexivity|].
  rewrite fillLines_length.
  split; [reflexivity|].
  split; [apply WrapShape.wrap_at_least_one_line|].
  apply fillLines_each.
Qed.

Lemma overlay_canvas_shape_witness :
  let decode := fun _ : jsstring => Some (1024%N, 768%N) in
  decode (lit "data:image/png;base64,QUJD") = Some (1024%N, 768%N)
  /\ exists texts,
      overlayTextOnImage decode (fixed_pitch 30) (lit "data:image/png;base64,QUJD") []
      = toDataURL {| width := 1024; height := 768;
                     ops := drawImage (lit "data:image/png;base64,QUJD") 0 0 :: texts |}
      /\ (1 <= List.length texts)%nat.
Proof.
  cbv zeta. split; [reflexivity|].
  destruct (overlay_canvas_shape (fun _ : jsstring => Some (1024%N, 768%N))
              (fixed_pitch 30) (lit "data:image/png;base64,QUJD") [] eq_refl)
    as (texts & Heq & _ & Hlen & _).
  exists texts. split; assumption.
Defined.

Lemma line_height_at_least_24 (W : N) :
  24 <= inject_Z (Z.of_N (N.max 20 (W / 20))) * (12 # 10).
Proof.
  unfold Qle. cbn.
  pose proof (N.le_max_l 20 (W / 20)) as Hmax.
  generalize dependent (N.max 20 (W / 20)). intros; lia.
Qed.

Lemma text_ys_fillLines_gap style x lh lines :
  24 <= lh ->
  forall y,
    Sorted.Sorted (fun y1 y2 => y1 + 24 <= y2)
      (text_ys (fillLines style x y lh lines)).
Proof.
  intros Hlh. induction lines as [|l lines IH]; intros y; simpl.
  - constructor.
  - constructor; [apply IH|].
    destruct lines as [|l' lines]; simpl; constructor.
    apply Qplus_le_r. exact Hlh.
Qed.

(** X9. The lines are drawn from top to bottom, each at least 24 units
    below the one before, whatever the image and the caption. *)
Theorem lines_drawn_top_down measureText (imageUrl text : jsstring) (W H : N) :
  Sorted.Sorted (fun y1 y2 => y1 + 24 <= y2)
    (text_ys (ops (onload measureText imageUrl text W H))).
Proof.
  unfold onload. cbn [ops font style_of].
  rewrite Typography.lineHeight_ctx_font. cbn [text_ys].
  apply text_ys_fillLines_gap. apply line_height_at_least_24.
Qed.

Lemma line_height_facts (W : N) :
  exists lh,
    lineHeight (ctx_font W) = Some lh
    /\ parseInt (ctx_font W) = Some (Qfloor (fontSize W))
    /\ lh == inject_Z (Qfloor (fontSize W)) * (12 # 10)
    /\ 24 <= lh
    /\ lh <= fontSize W * (12 # 10)
    /\ fontSize W * (12 # 10) - (12 # 10) < lh.
Proof.
  rewrite Typography.lineHeight_ctx_font, Typography.parseInt_ctx_font.
  eexists. split; [reflexivity|].
  pose proof (line_height_at_least_24 W) as H24.
  assert (Hfloor : Qfloor (fontSize W) = Z.of_N (N.max 20 (W / 20))).
  { destruct (Typography.fontSize_cases W) as [[HW ->] | [HW ->]].
    - rewrite N.max_l; [reflexivity|].
      apply N.Div0.div_le_upper_bound. lia.
    - rewrite N.max_r by (apply N.div_le_lower_bound; lia).
      unfold Qfloor. cbn [Qdiv Qmult Qinv inject_Z Qnum Qden Pos.mul].
      rewrite Z.mul_1_r. now rewrite N2Z.inj_div. }
  rewrite Hfloor.
  split; [reflexivity|]. split; [reflexivity|]. split; [exact H24|].
  pose proof (N.div_mod W 20 ltac:(discriminate)) as Hdiv.
  pose proof (N.mod_lt W 20 ltac:(discriminate)) as Hmod.
  destruct (Typography.fontSize_cases W) as [[HW ->] | [HW ->]].
  - rewrite N.max_l by (apply N.Div0.div_le_upper_bound; lia).
    split; [apply Qle_refl | reflexivity].
  - rewrite N.max_r by (apply N.div_le_lower_bound; lia).
    generalize dependent (W mod 20)%N. generalize dependent (W / 20)%N.
    intros q _ _ r Hdiv Hmod.
    unfold Qle, Qlt. cbn. split; lia.
Qed.

(** X11. For every width, [parseInt] reads the whole part of the font
    size back from [ctx.font]: the line height is a number, 1.2 times the
    font size rounded down.  It is at least 24, at most 1.2 times the
    font size, and less than 1.2 below it. *)
Theorem lineHeight_is_floor_of_fontSize (W : N) :
  exists lh,
    lineHeight (ctx_font W) = Some lh
    /\ parseInt (ctx_font W) = Some (Qfloor (fontSize W))
    /\ lh == inject_Z (Qfloor (fontSize W)) * (12 # 10)
    /\ 24 <= lh
    /\ lh <= fontSize W * (12 # 10)
    /\ fontSize W * (12 # 10) - (12 # 10) < lh.
Proof. apply line_height_facts. Qed.

(** X12. The line height is 1.2 times the font size exactly for the
    widths up to 400 and the multiples of 20, where the font size is a
    whole number; for every other width it is smaller. *)
Theorem lineHeight_short_unless_whole (W : N) :
  exists lh,
    lineHeight (ctx_font W) = Some lh
    /\ (lh == fontSize W * (12 # 10) <-> (W <= 400)%N \/ (W mod 20 = 0)%N)
    /\ (~ ((W <= 400)%N \/ (W mod 20 = 0)%N) -> lh < fontSize W * (12 # 10)).
Proof.
  destruct (line_height_facts W) as (lh & Hlh & _ & _ & _ & Hle & _).
  exists lh. split; [exact Hlh|].
  assert (Hiff : lh == fontSize W * (12 # 10) <-> (W <= 400)%N \/ (W mod 20 = 0)%N).
  { rewrite <- Typography.lineHeight_exact_iff. split.
    - intros Heq. now exists lh.
    - intros (lh' & Hlh' & Heq). rewrite Hlh in Hlh'. now injection Hlh' as ->. }
  split; [exact Hiff|].
  intros Hnot. apply Qle_lteq in Hle as [Hlt | Heq]; [exact Hlt|].
  now apply Hiff in Heq.
Qed.

End CanvasShape.

(** ** Outcomes of [generateImages] (lines 63-122) *)
Module ClientOutcomes.
Import JSString Compositor Layout Client Examples StringFacts ClientFacts.

Section Generate.

Variable decode : jsstring -> option (N * N).
Variable measureText : jsstring -> jsstring -> Q.
Variable fetch : Request -> Response.

Local Abbreviation generateImages := (generateImages decode measureText fetch).

(** Past validation, the outcome is computed from the prompt, the caption
    and the key alone; of the rest of the state only the message
    survives. *)
Lemma generateImages_inputs_only st1 st2 :
  prompt st1 = prompt st2 ->
  customText st1 = customText st2 ->
  apiKey st1 = apiKey st2 ->
  message st1 = message st2 ->
  truthy (trim (prompt st1)) = true ->
  truthy (trim (apiKey st1)) = true ->
  generateImages st1 = generateImages st2.
Proof.
  destruct st1 as [p1 c1 g1 l1 e1 m1 k1], st2 as [p2 c2 g2 l2 e2 m2 k2].
  cbn [prompt customText apiKey message]. intros <- <- <- <- Hp Hk.
  unfold Client.generateImages, request_of.
  cbn [prompt customText apiKey message]. rewrite Hp, Hk. cbn [negb].
  destruct (fetch _) as [m | m | [[|p ps]|]]; reflexivity.
Qed.

Lemma generateImages_frame st :
  prompt (fst (generateImages st)) = prompt st
  /\ customText (fst (generateImages st)) = customText st
  /\ apiKey (fst (generateImages st)) = apiKey st.
Proof.
  unfold Client.generateImages.
  destruct (truthy (trim (prompt st))); cbn [negb]; [|now repeat split].
  destruct (truthy (trim (apiKey st))); cbn [negb]; [|now repeat split].
  destruct (fetch _) as [m | m | [[|p ps]|]]; now repeat split.
Qed.

Lemma generateImages_message st :
  truthy (trim (prompt st)) = true ->
  truthy (trim (apiKey st)) = true ->
  message (fst (generateImages st)) = message st.
Proof.
  intros Hp Hk. unfold Client.generateImages. rewrite Hp, Hk. cbn [negb].
  destruct (fetch _) as [m | m | [[|p ps]|]]; reflexivity.
Qed.

End Generate.

(** X14. A request that fails (the call is rejected, the status is not OK,
    or the response has no predictions) ends with the banner shown, with
    the service's message when there is a non-empty one and a fixed
    message otherwise, an empty gallery, the loading flag down and the
    message untouched. *)
Theorem failure_is_reported decode measureText fetch st :
  truthy (trim (prompt st)) = true ->
  truthy (trim (apiKey st)) = true ->
  match fetch (request_of st) with Ok (Some (_ :: _)) => False | _ => True end ->
  let st' := fst (generateImages decode measureText fetch st) in
  error st'
  = match fetch (request_of st) with
    | Rejected m =>
        if truthy m then m
        else lit "An unexpected error occurred during image generation."
    | NotOk (Some m) =>
        if truthy m then m
        else lit "Failed to generate images. Please check your API key and prompt."
    | NotOk None =>
        lit "Failed to generate images. Please check your API key and prompt."
    | Ok _ => lit "No images were generated. Please try a different prompt."
    end
  /\ banner_shown st' = true
  /\ generatedImages st' = []
  /\ loading st' = false
  /\ message st' = message st.
Proof.
  intros Hp Hk Hfail. cbv zeta. unfold generateImages, banner_shown.
  rewrite Hp, Hk. cbn [negb fst].
  destruct (fetch (request_of st)) as [m | [m|] | [[|p ps]|]];
    try contradiction;
    cbn [error generatedImages loading message setLoading setError setGeneratedImages];
    unfold or_else;
    try (destruct m as [|c m]); repeat split.
Qed.

Lemma failure_is_reported_witness :
  let fetch := fun _ : Request => NotOk (Some (lit "API key not valid.")) in
  let decode := fun _ : jsstring => Some (1024%N, 1024%N) in
  let st' := fst (generateImages decode (fixed_pitch 30) fetch (ready [])) in
  truthy (trim (prompt (ready []))) = true
  /\ truthy (trim (apiKey (ready []))) = true
  /\ error st' = lit "API key not valid."
  /\ banner_shown st' = true.
Proof.
  cbv zeta.
  destruct (failure_is_reported (fun _ : jsstring => Some (1024%N, 1024%N))
              (fixed_pitch 30)
              (fun _ : Request => NotOk (Some (lit "API key not valid.")))
              (ready []) eq_refl eq_refl I) as (Herr & Hshown & _).
  split; [reflexivity|]. split; [reflexivity|]. split; [exact Herr | exact Hshown].
Defined.

(** X15. The banner and the gallery are never shown together: a state
    with an empty gallery or an empty error is taken to such a state,
    whatever the service answers and whether or not validation passes;
    dismissing the message keeps it so. *)
Theorem banner_excludes_gallery decode measureText fetch st :
  generatedImages st = [] \/ error st = [] ->
  let st' := fst (generateImages decode measureText fetch st) in
  (generatedImages st' = [] \/ error st' = [])
  /\ (generatedImages (handleCloseMessage st') = []
      \/ error (handleCloseMessage st') = []).
Proof.
  intros Hinv. cbv zeta.
  assert (H : generatedImages (fst (generateImages decode measureText fetch st)) = []
              \/ error (fst (generateImages decode measureText fetch st)) = []).
  { unfold generateImages.
    destruct (truthy (trim (prompt st))); cbn [negb]; [|exact Hinv].
    destruct (truthy (trim (apiKey st))); cbn [negb]; [|exact Hinv].
    destruct (fetch _) as [m | m | [[|p ps]|]]; cbn; auto. }
  split; exact H.
Qed.

Lemma banner_excludes_gallery_witness :
  let fetch := fun _ : Request => Ok (Some [sample]) in
  let decode := fun _ : jsstring => Some (1024%N, 1024%N) in
  let st' := fst (generateImages decode (fixed_pitch 30) fetch (ready [])) in
  (generatedImages (ready []) = [] \/ error (ready []) = [])
  /\ (generatedImages st' = [] \/ error st' = []).
Proof.
  cbv zeta. split; [now left|].
  exact (proj1 (banner_excludes_gallery (fun _ : jsstring => Some (1024%N, 1024%N))
                  (fixed_pitch 30) (fun _ : Request => Ok (Some [sample]))
                  (ready []) (or_introl eq_refl))).
Defined.

(** X17. A request replaces what was displayed before: once validation
    passes, two states with the same prompt, caption, key and message end
    in the same state and send the same request, whatever their previous
    galleries, errors and loading flags. *)
Theorem previous_results_are_replaced decode measureText fetch st1 st2 :
  prompt st1 = prompt st2 ->
  customText st1 = customText st2 ->
  apiKey st1 = apiKey st2 ->
  message st1 = message st2 ->
  truthy (trim (prompt st1)) = true ->
  truthy (trim (apiKey st1)) = true ->
  generateImages decode measureText fetch st1
  = generateImages decode measureText fetch st2.
Proof. apply generateImages_inputs_only. Qed.

Lemma previous_results_are_replaced_witness :
  let fetch := fun _ : Request => Ok (Some [sample]) in
  let decode := fun _ : jsstring => Some (1024%N, 1024%N) in
  let stale := setError (lit "old error")
                 (setGeneratedImages [Url (lit "old")] (ready [])) in
  truthy (trim (prompt stale)) = true
  /\ truthy (trim (apiKey stale)) = true
  /\ generateImages decode (fixed_pitch 30) fetch stale
     = generateImages decode (fixed_pitch 30) fetch (ready []).
Proof.
  cbv zeta. split; [reflexivity|]. split; [reflexivity|].
  exact (previous_results_are_replaced
           (fun _ : jsstring => Some (1024%N, 1024%N)) (fixed_pitch 30)
           (fun _ : Request => Ok (Some [sample]))
           (setError (lit "old error")
              (setGeneratedImages [Url (lit "old")] (ready [])))
           (ready []) eq_refl eq_refl eq_refl eq_refl eq_refl eq_refl).
Defined.

(** X18. [generateImages] never changes the prompt, the caption or the
    key; and with the same answer from the service, generating again
    from the state just reached gives that state again and sends the
    same request. *)
Theorem generating_again_is_stable decode measureText fetch st :
  let st' := fst (generateImages decode measureText fetch st) in
  prompt st' = prompt st
  /\ customText st' = customText st
  /\ apiKey st' = apiKey st
  /\ (truthy (trim (prompt st)) = true ->
      truthy (trim (apiKey st)) = true ->
      generateImages decode measureText fetch st'
      = generateImages decode measureText fetch st).
Proof.
  cbv zeta.
  destruct (generateImages_frame decode measureText fetch st) as (Hp & Hc & Hk).
  repeat split; try assumption.
  intros Hvp Hvk.
  apply generateImages_inputs_only; try assumption.
  - now apply generateImages_message.
  - now rewrite Hp.
  - now rewrite Hk.
Qed.

Lemma generating_again_is_stable_witness :
  let fetch := fun _ : Request => Ok (Some [sample]) in
  let decode := fun _ : jsstring => Some (1024%N, 1024%N) in
  let st := ready (lit "Sale Now") in
  let st' := fst (generateImages decode (fixed_pitch 30) fetch st) in
  truthy (trim (prompt st)) = true
  /\ truthy (trim (apiKey st)) = true
  /\ generateImages decode (fixed_pitch 30) fetch st'
     = generateImages decode (fixed_pitch 30) fetch st.
Proof.
  cbv zeta. split; [reflexivity|]. split; [reflexivity|].
  exact (proj2 (proj2 (proj2
           (generating_again_is_stable
              (fun _ : jsstring => Some (1024%N, 1024%N)) (fixed_pitch 30)
              (fun _ : Request => Ok (Some [sample])) (ready (lit "Sale Now")))))
           eq_refl eq_refl).
Defined.

(** X19. A refused submission loses nothing: when the prompt or the key
    is blank, generating and then dismissing the message gives the state
    back, but for a message that was already shown, which is dismissed
    too. *)
Theorem refused_then_dismissed decode measureText fetch st :
  truthy (trim (prompt st)) && truthy (trim (apiKey st)) = false ->
  handleCloseMessage (fst (generateImages decode measureText fetch st))
  = handleCloseMessage st
  /\ (message st = [] ->
      handleCloseMessage (fst (generateImages decode measureText fetch st)) = st).
Proof.
  intros Hinvalid.
  assert (H : handleCloseMessage (fst (generateImages decode measureText fetch st))
              = handleCloseMessage st).
  { unfold generateImages.
    destruct (truthy (trim (prompt st))); cbn [negb andb] in *; [|reflexivity].
    rewrite Hinvalid. reflexivity. }
  split; [exact H|].
  intros Hmsg. rewrite H. destruct st as [p c g l e m k].
  cbn in Hmsg. subst m. reflexivity.
Qed.

Lemma refused_then_dismissed_witness :
  let st := setGeneratedImages [Url (lit "data:image/png;base64,QUJD")]
              {| prompt := lit "  "; customText := []; generatedImages := [];
                 loading := false; error := []; message := [];
                 apiKey := lit "AIzaSy-demo" |} in
  truthy (trim (prompt st)) && truthy (trim (apiKey st)) = false
  /\ handleCloseMessage
       (fst (generateImages (fun _ => None) (fixed_pitch 30) (fun _ => Ok None) st))
     = st.
Proof.
  cbv zeta. split; [reflexivity|].
  exact (proj2 (refused_then_dismissed (fun _ => None) (fixed_pitch 30)
                  (fun _ => Ok None)
                  (setGeneratedImages [Url (lit "data:image/png;base64,QUJD")]
                     {| prompt := lit "  "; customText := []; generatedImages := [];
                        loading := false; error := []; message := [];
                        apiKey := lit "AIzaSy-demo" |})
                  eq_refl) eq_refl).
Defined.

End ClientOutcomes.

(** ** Downloading (lines 189-196, 297-315) *)
Module DownloadFacts.
Import JSString JSNumber Compositor Download NumberFacts.

Lemma Number_toString_integer (n : N) :
  Number_toString (inject_Z (Z.of_N n)) = digits n.
Proof.
  unfold Number_toString, unsigned_toString.
  cbn [inject_Z Qnum Qden].
  assert ((Z.of_N n <? 0)%Z = false) as -> by (apply Z.ltb_ge; lia).
  rewrite N2Z.id, N.div_1_r, N.mod_1_r. cbn [N.eqb]. apply app_nil_r.
Qed.

Lemma download_name_digits (index : N) :
  download_name index
  = lit "hey-picture-image-" ++ digits (index + 1) ++ lit ".png".
Proof. unfold download_name. now rewrite Number_toString_integer. Qed.

Lemma parseInt_numbered (n : N) :
  parseInt (digits n ++ lit ".png") = Some (Z.of_N n).
Proof.
  change (lit ".png") with (46%N :: lit "png").
  apply parseInt_digits; [reflexivity | discriminate | discriminate].
Qed.

Lemma download_name_injective i j :
  download_name i = download_name j -> i = j.
Proof.
  rewrite !download_name_digits. intros Heq.
  apply app_inv_head in Heq.
  apply (f_equal parseInt) in Heq. rewrite !parseInt_numbered in Heq.
  injection Heq as Heq. lia.
Qed.

Lemma map_index_nth (A B : Type) (f : A -> N -> B) l :
  forall i k b,
    nth_error (map_index f i l) k = Some b ->
    exists a, nth_error l k = Some a /\ b = f a (i + N.of_nat k)%N.
Proof.
  induction l as [|a l IH]; intros i k b Hk.
  - destruct k; discriminate.
  - destruct k as [|k]; simpl in Hk.
    + injection Hk as <-. exists a. split; [reflexivity|].
      now rewrite N.add_0_r.
    + apply IH in Hk as (a' & Ha' & ->). exists a'. split; [assumption|].
      f_equal. lia.
Qed.

Lemma map_index_length (A B : Type) (f : A -> N -> B) l :
  forall i, List.length (map_index f i l) = List.length l.
Proof.
  induction l as [|a l IH]; intros i; simpl; [reflexivity|]. now rewrite IH.
Qed.

(** X20. The download buttons of the gallery: there is one per image, in
    order, and the card at position [k] (from 0) downloads its own image
    under the name "hey-picture-image-(k+1).png"; the number in the name
    reads back as k+1, so counting starts at 1, and two different cards
    never share a file name. *)
Theorem gallery_download_names (images : list DataURL) :
  let links := gallery_downloads images in
  map href links = images
  /\ (forall k link,
        nth_error links k = Some link ->
        download link
        = lit "hey-picture-image-" ++ digits (N.of_nat k + 1) ++ lit ".png"
        /\ parseInt (digits (N.of_nat k + 1) ++ lit ".png")
           = Some (Z.of_nat k + 1)%Z)
  /\ NoDup (map download links).
Proof.
  cbv zeta. unfold gallery_downloads. split; [|split].
  - generalize 0%N. induction images as [|a l IH]; intros i; simpl;
      [reflexivity | now rewrite IH].
  - intros k link Hk.
    apply map_index_nth in Hk as (a & _ & ->). cbn [download handleDownload].
    rewrite N.add_0_l, download_name_digits, parseInt_numbered.
    split; [reflexivity|]. f_equal. lia.
  - apply (proj2 (NoDup_nth_error _)).
    intros i j Hi Heq. rewrite length_map in Hi.
    rewrite !nth_error_map in Heq.
    destruct (nth_error (map_index handleDownload 0 images) i) as [li|] eqn:Hli.
    2:{ apply nth_error_None in Hli. lia. }
    destruct (nth_error (map_index handleDownload 0 images) j) as [lj|] eqn:Hlj;
      [|discriminate].
    apply map_index_nth in Hli as (a & _ & ->).
    apply map_index_nth in Hlj as (b & _ & ->).
    assert (Hsome : forall x y : jsstring, Some x = Some y -> x = y)
      by (intros x y Hxy; congruence).
    apply Hsome in Heq.
    change (download_name (0 + N.of_nat i) = download_name (0 + N.of_nat j)) in Heq.
    apply download_name_injective in Heq. lia.
Qed.

End DownloadFacts.

(** ** Blank lines, the caption guard and the text block *)
Module OverlayEdges.
Import JSString JSNumber Compositor Layout Client Examples StringFacts WrapFacts.

(** X7. A caption whose words are separated by single spaces, with no
    space before or after and no other whitespace, is never drawn with a
    blank line, whatever the metric and the budget. *)
Theorem single_spaced_no_blank_line measureText font budget (text : jsstring) :
  split_space text = ws_words text ->
  Forall (fun l => trim l <> [])
    (wrap measureText font budget text).
Proof.
  intros Hsame.
  destruct (wrap_groups measureText font budget text)
    as (groups & -> & Hconcat & _ & Hall & _).
  apply Forall_map. rewrite Forall_forall in *. intros g Hg Hblank.
  assert (Hwords : ws_words (trim (line_of g)) = []) by now rewrite Hblank.
  rewrite ws_words_trim, ws_words_line_of in Hwords.
  destruct g as [|w g]; [now apply (Hall [] Hg)|].
  simpl in Hwords. apply app_eq_nil in Hwords as [Hw _].
  apply (ws_words_In_has_word text w); [|assumption].
  rewrite <- Hsame, <- Hconcat. apply in_concat.
  exists (w :: g). split; [assumption | now left].
Qed.

Lemma single_spaced_no_blank_line_witness :
  split_space (lit "Sale Now") = ws_words (lit "Sale Now")
  /\ Forall (fun l => trim l <> [])
       (wrap (fixed_pitch 30) (ctx_font 1024) (maxWidth 1024) (lit "Sale Now")).
Proof.
  split; [reflexivity|].
  exact (single_spaced_no_blank_line (fixed_pitch 30) (ctx_font 1024)
           (maxWidth 1024) (lit "Sale Now") eq_refl).
Defined.

Lemma nonblank_trim_truthy s :
  existsb (fun c => negb (isWhiteSpace c)) s = true -> truthy (trim s) = true.
Proof.
  intros Hex. destruct (trim s) eqn:Ht; [|reflexivity].
  apply trim_blank_inv in Ht.
  apply existsb_exists in Hex as (c & Hin & Hc).
  rewrite forallb_forall in Ht. rewrite (Ht c Hin) in Hc. discriminate.
Qed.

(** X13. A caption with any code unit that is not whitespace is always
    overlaid, and as typed, untrimmed: a prediction with a payload goes
    through [overlayTextOnImage] with the caption itself, and when its
    image decodes the result is a canvas on which that image is drawn
    first, never the raw payload. *)
Theorem nonblank_caption_is_overlaid decode measureText customText prediction :
  existsb (fun c => negb (isWhiteSpace c)) customText = true ->
  has_payload prediction = true ->
  per_prediction decode measureText customText prediction
  = Some (overlayTextOnImage decode measureText (payload_url prediction) customText)
  /\ (forall W H,
        decode (payload_url prediction) = Some (W, H) ->
        exists texts,
          per_prediction decode measureText customText prediction
          = Some (toDataURL
                    {| width := W; height := H;
                       ops := drawImage (payload_url prediction) 0 0 :: texts |})).
Proof.
  intros Hnonblank Hpay. apply nonblank_trim_truthy in Hnonblank.
  assert (Hper : per_prediction decode measureText customText prediction
                 = Some (overlayTextOnImage decode measureText
                           (payload_url prediction) customText)).
  { rewrite ClientFacts.per_prediction_spec, Hpay.
    unfold image_of. now rewrite Hnonblank. }
  split; [exact Hper|].
  intros W H Hdecode. rewrite Hper.
  unfold overlayTextOnImage, onload. rewrite Hdecode.
  eexists. reflexivity.
Qed.

Lemma nonblank_caption_is_overlaid_witness :
  existsb (fun c => negb (isWhiteSpace c)) (lit " Sale ") = true
  /\ has_payload sample = true
  /\ per_prediction (fun _ => None) (fixed_pitch 30) (lit " Sale ") sample
     = Some (overlayTextOnImage (fun _ => None) (fixed_pitch 30)
               (payload_url sample) (lit " Sale ")).
Proof.
  split; [reflexivity|]. split; [reflexivity|].
  exact (proj1 (nonblank_caption_is_overlaid (fun _ => None) (fixed_pitch 30)
                  (lit " Sale ") sample eq_refl eq_refl)).
Defined.

End OverlayEdges.

(** ** Responses with [null] entries (lines 97-118) *)
Module ServiceFacts.
Import JSString Compositor Layout Client Service Examples StringFacts ClientFacts.

Section TryBlock.

Variable decode : jsstring -> option (N * N).
Variable measureText : jsstring -> jsstring -> Q.
Variable typeError : jsstring.
Variable service : Request -> Reply.

(** One [null] entry rejects the whole batch; without one, the batch is
    the callback's values on the entries, in order. *)
Lemma Promise_all_per_entry customText entries :
  Promise_all (map (per_entry decode measureText typeError customText) entries)
  = if existsb is_null entries then inl typeError
    else inr (map (per_prediction decode measureText customText) (values entries)).
Proof.
  induction entries as [|[|prediction] entries IH]; [reflexivity | reflexivity |].
  cbn [map per_entry Promise_all existsb is_null orb values].
  rewrite IH. now destruct (existsb is_null entries).
Qed.

Lemma values_length entries :
  (List.length (values entries) <= List.length entries)%nat.
Proof.
  induction entries as [|[|prediction] entries IH]; simpl; lia.
Qed.

Lemma values_In prediction entries :
  In prediction (values entries) -> In (value_entry prediction) entries.
Proof.
  induction entries as [|[|q] entries IH]; simpl; [tauto | tauto |].
  intros [-> | Hin]; auto.
Qed.

(** [Service.generateImages] is [Client.generateImages] on the reply as
    the [try] block experiences it. *)
Lemma generateImages_observed st :
  Service.generateImages decode measureText typeError service st
  = Client.generateImages decode measureText
      (fun req => observed typeError (service req)) st.
Proof.
  unfold Service.generateImages, Client.generateImages.
  destruct (truthy (trim (prompt st))); cbn [negb]; [|reflexivity].
  destruct (truthy (trim (apiKey st))); cbn [negb]; [|reflexivity].
  destruct (service (request_of st)) as [m | m | [[|e es]|]]; try reflexivity.
  rewrite Promise_all_per_entry. cbn [observed].
  destruct (existsb is_null (e :: es)) eqn:Hnull; [reflexivity|].
  destruct e as [|prediction]; [discriminate|]. reflexivity.
Qed.

End TryBlock.





End ServiceFacts.

(** ** The vertical layout in binary64 (lines 170-176) *)
Module Binary64Facts.
Import JSString JSNumber Compositor Layout Examples Binary64.
Import Floats.
Local Open Scope float_scope.

Lemma lineHeight_binary64_ctx_font (W : N) :
  Binary64.lineHeight (ctx_font W)
  = Some (float_of_Z (Z.of_N (N.max 20 (W / 20))) * literal_1_2).
Proof. unfold Binary64.lineHeight. now rewrite Typography.parseInt_ctx_font. Qed.

Lemma fillLines_texts lh lines :
  forall y, map fst (Binary64.fillLines y lh lines) = map trim lines.
Proof.
  induction lines as [|l lines IH]; intros y; simpl; [reflexivity|].
  now rewrite IH.
Qed.

Lemma fillLines_step lh lines :
  forall y0 i y y',
    nth_error (map snd (Binary64.fillLines y0 lh lines)) i = Some y ->
    nth_error (map snd (Binary64.fillLines y0 lh lines)) (S i) = Some y' ->
    y' = y + lh.
Proof.
  induction lines as [|l lines IH]; intros y0 i y y' Hy Hy'.
  - destruct i; discriminate.
  - destruct i as [|i].
    + destruct lines as [|l' lines]; [discriminate|].
      simpl in Hy, Hy'. injection Hy as <-. now injection Hy' as <-.
    + simpl in Hy, Hy'. eapply IH; eassumption.
Qed.




End Binary64Facts.
